(** * Scrooge, [scripts/cigar_inspector.py]: CIGAR decoding and GenASM windows

    A shallow embedding of the three functions of the script that compute
    something ([cigar_to_coords], [cigar_to_match_coords] and
    [plot_genasm_windows]), together with the regular-expression scan they
    rely on, and the properties of these functions.

    Python values are modelled as follows:
    - a [str] is a [string]; the characters of the model are the code points
      below 256, among which the pattern [\d] matches exactly ["0"] .. ["9"];
    - an [int] is a [Z] (Python integers are unbounded);
    - a tuple [(i, j)] is a pair, a list is a [list];
    - a call that may raise returns a [result], the exception being a value;
      the messages are those of CPython 3.11, and the bound that the
      interpreter puts on the digits of a conversion between [int] and [str]
      is its default, 4300, which the script does not change;
    - [ax.plot(xs, ys, color=c)] is recorded as a value of [plot_call]. *)

From Stdlib Require Import String Ascii List ZArith Bool Lia Arith.
From Stdlib Require Import QArith DecimalString Sorted.
Import ListNotations.

#[local] Open Scope string_scope.
#[local] Open Scope Z_scope.

(** ** Exceptions *)

Inductive exn : Type :=
| ValueError (msg : string)
| IndexError
| ZeroDivisionError.

Inductive result (A : Type) : Type :=
| Ok (a : A)
| Raise (e : exn).

Arguments Ok {A} a.
Arguments Raise {A} e.

Definition bind {A B : Type} (m : result A) (k : A -> result B) : result B :=
  match m with
  | Ok a => k a
  | Raise e => Raise e
  end.

Notation "x <- m ;; k" := (bind m (fun x => k))
  (at level 61, m at next level, right associativity).

(** ** The regular expression [(\d+)([=XID])] *)

Module Re.

(** [\d] on the characters of the model. *)
Definition is_digit (c : ascii) : bool :=
  ((48 <=? nat_of_ascii c) && (nat_of_ascii c <=? 57))%nat.

(** The character class [[=XID]]. *)
Definition is_edit_symbol (c : ascii) : bool :=
  (c =? "=")%char || (c =? "X")%char || (c =? "I")%char || (c =? "D")%char.

(** A match object: [group(1)], the digits, and [group(2)], the symbol. *)
Record run : Type := mkRun { group1 : string; group2 : ascii }.

(** The greedy [\d*]: the longest prefix of digits and what follows it. *)
Fixpoint span_digits (s : string) : string * string :=
  match s with
  | String c t =>
      if is_digit c
      then let (d, r) := span_digits t in (String c d, r)
      else (EmptyString, s)
  | EmptyString => (EmptyString, EmptyString)
  end.

(** An attempt to match the pattern at the very start of [s]: at least one
    digit, as many as there are, then one symbol of the class.  Giving
    digits back cannot help, since the character after a shorter prefix is
    a digit.  On success the match and the text after it are returned. *)
Definition match_at (s : string) : option (run * string) :=
  match span_digits s with
  | (String c0 d, String c r) =>
      if is_edit_symbol c then Some (mkRun (String c0 d) c, r) else None
  | _ => None
  end.

(** The scan of [re.finditer]: the leftmost match is taken, the scan goes
    on after its end, and a position where the pattern does not match is
    skipped.  [fuel] bounds the number of positions visited. *)
Fixpoint finditer_from (fuel : nat) (s : string) : list run :=
  match fuel with
  | O => []
  | S fuel' =>
      match match_at s with
      | Some (m, rest) => m :: finditer_from fuel' rest
      | None =>
          match s with
          | EmptyString => []
          | String _ t => finditer_from fuel' t
          end
      end
  end.

(** A string has [length s] positions to visit. *)
Definition finditer (s : string) : list run :=
  finditer_from (String.length s) s.

End Re.

Import Re.

(** ** [str] of an integer and [int] on a string of digits *)

(** The decimal text of an integer. *)
Definition str (z : Z) : string := NilZero.string_of_int (Z.to_int z).

(** [sys.get_int_max_str_digits()], left at its default by the script. *)
Definition int_max_str_digits : Z := 4300.

Definition digit_value (c : ascii) : Z := Z.of_nat (nat_of_ascii c) - 48.

Fixpoint int_from (acc : Z) (s : string) : Z :=
  match s with
  | EmptyString => acc
  | String c t => int_from (10 * acc + digit_value c) t
  end.

(** The number that a string of digits writes; leading zeros are allowed. *)
Definition digits_value (s : string) : Z := int_from 0 s.

(** [int(s)] for [s] a string of digits, which is what [group(1)] is.  Every
    digit counts for the bound, leading zeros too. *)
Definition int (s : string) : result Z :=
  let n := Z.of_nat (String.length s) in
  if n <=? int_max_str_digits then Ok (digits_value s)
  else
    Raise (ValueError
             ("Exceeds the limit (4300 digits) for integer string conversion: value has "
              ++ str n
              ++ " digits; use sys.set_int_max_str_digits() to increase the limit")).

(** ** The decoders *)

Definition coord : Type := (Z * Z)%type.

(** The [if]/[elif]/[else] chain shared, word for word, by the two decoders:
    the cursor after a run, or the [ValueError] of the last branch. *)
Definition advance (ij : coord) (edit_count : Z) (edit_type : ascii)
  : result coord :=
  let (i, j) := ij in
  if ((edit_type =? "=") || (edit_type =? "X"))%char then
    Ok (i + edit_count, j + edit_count)
  else if (edit_type =? "I")%char then
    Ok (i + edit_count, j)
  else if (edit_type =? "D")%char then
    Ok (i, j + edit_count)
  else
    Raise (ValueError
             ("cigar string has unknown edit type " ++ String edit_type EmptyString)).

(** The loop of [cigar_to_coords]; [res.append] adds at the end. *)
Fixpoint coords_loop (runs : list run) (ij : coord) (res : list coord)
  : result (list coord) :=
  match runs with
  | [] => Ok res
  | run :: runs' =>
      edit_count <- int (group1 run) ;;
      let edit_type := group2 run in
      ij' <- advance ij edit_count edit_type ;;
      coords_loop runs' ij' (res ++ [ij'])
  end.

Definition cigar_to_coords (cigar : string) : result (list coord) :=
  coords_loop (finditer cigar) (0, 0) [(0, 0)].

(** The loop of [cigar_to_match_coords]. *)
Fixpoint match_coords_loop (runs : list run) (ij : coord)
  (res : list (coord * coord)) : result (list (coord * coord)) :=
  match runs with
  | [] => Ok res
  | run :: runs' =>
      edit_count <- int (group1 run) ;;
      let edit_type := group2 run in
      let before := ij in
      after <- advance ij edit_count edit_type ;;
      if (edit_type =? "=")%char
      then match_coords_loop runs' after (res ++ [(before, after)])
      else match_coords_loop runs' after res
  end.

Definition cigar_to_match_coords (cigar : string)
  : result (list (coord * coord)) :=
  match_coords_loop (finditer cigar) (0, 0) [].

(** ** The windows of [plot_genasm_windows] *)

(** [l[-1]]; an empty list has no last item. *)
Fixpoint last_item {A : Type} (l : list A) : result A :=
  match l with
  | [] => Raise IndexError
  | [x] => Ok x
  | _ :: t => last_item t
  end.

(** The first loop of [plot_genasm_windows]: the vertices of the path are
    visited in order and [window_starts] grows at its end. *)
Fixpoint window_starts_loop (alignment_path : list coord) (W O : Z)
  (window_starts : list coord) : result (list coord) :=
  match alignment_path with
  | [] => Ok window_starts
  | (i, j) :: path' =>
      anchor <- last_item window_starts ;;
      if (i >? fst anchor + W - O) || (j >? snd anchor + W - O)
      then window_starts_loop path' W O (window_starts ++ [(i, j)])
      else window_starts_loop path' W O window_starts
  end.

(** The loop started the way the function starts it, on [[(0, 0)]]. *)
Definition compute_window_starts (alignment_path : list coord) (W O : Z)
  : result (list coord) :=
  window_starts_loop alignment_path W O [(0, 0)].

Definition window_end (window_start : coord) (W : Z)
  (read reference : string) : coord :=
  (Z.min (fst window_start + W) (Z.of_nat (String.length read)),
   Z.min (snd window_start + W) (Z.of_nat (String.length reference))).

Definition window_polygon (window_start : coord) (W : Z)
  (read reference : string) : list coord :=
  let window_end := window_end window_start W read reference in
  [ window_start;
    (fst window_start, snd window_end);
    window_end;
    (fst window_end, snd window_start);
    window_start ].

(** One call [ax.plot(xs, ys, color=c)]. *)
Record plot_call (C : Type) : Type :=
  mkPlot { plot_xs : list Z; plot_ys : list Z; plot_color : C }.

Arguments mkPlot {C} _ _ _.
Arguments plot_xs {C} _.
Arguments plot_ys {C} _.
Arguments plot_color {C} _.

(** [colors[i % len(colors)]] for [i >= 0]. *)
Definition color_at {C : Type} (colors : list C) (i : nat) : result C :=
  match List.length colors with
  | O => Raise ZeroDivisionError
  | S _ =>
      match nth_error colors (i mod List.length colors) with
      | Some c => Ok c
      | None => Raise IndexError
      end
  end.

(** The second loop, over [enumerate(window_starts)] from index [i] on; the
    calls to [ax.plot] are returned in the order they are made. *)
Fixpoint plot_windows_loop {C : Type} (i : nat) (window_starts : list coord)
  (W : Z) (read reference : string) (colors : list C)
  : result (list (plot_call C)) :=
  match window_starts with
  | [] => Ok []
  | window_start :: rest =>
      let polygon := window_polygon window_start W read reference in
      c <- color_at colors i ;;
      calls <- plot_windows_loop (S i) rest W read reference colors ;;
      Ok (mkPlot (map fst polygon) (map snd polygon) c :: calls)
  end.

Definition plot_genasm_windows {C : Type} (read reference cigar : string)
  (colors : list C) (W O : Z) : result (list (plot_call C)) :=
  alignment_path <- cigar_to_coords cigar ;;
  window_starts <- compute_window_starts alignment_path W O ;;
  plot_windows_loop 0 window_starts W read reference colors.

(** ** The vocabulary of the specification *)

(** A string of the grammar [(\d+[=XID])*] is the concatenation of the texts
    of its runs, each of them some digits, at least one, and a symbol. *)
Fixpoint all_digits (s : string) : bool :=
  match s with
  | EmptyString => true
  | String c t => is_digit c && all_digits t
  end.

Definition well_formed_run (r : run) : bool :=
  negb (group1 r =? EmptyString)%string && all_digits (group1 r)
  && is_edit_symbol (group2 r).

Definition run_text (r : run) : string :=
  group1 r ++ String (group2 r) EmptyString.

Fixpoint cigar_text (rs : list run) : string :=
  match rs with
  | [] => EmptyString
  | r :: rs' => run_text r ++ cigar_text rs'
  end.

(** [cigar] is a valid CIGAR string and [rs] are its runs, in order. *)
Definition valid_cigar (cigar : string) (rs : list run) : Prop :=
  forallb well_formed_run rs = true /\ cigar = cigar_text rs.

Definition count (r : run) : Z := digits_value (group1 r).

(** The digits of the run are within the bound of [int]. *)
Definition count_fits (r : run) : bool :=
  Z.of_nat (String.length (group1 r)) <=? int_max_str_digits.

(** The message of [int] on the digits of a run beyond the bound. *)
Definition count_error (r : run) : exn :=
  ValueError
    ("Exceeds the limit (4300 digits) for integer string conversion: value has "
     ++ str (Z.of_nat (String.length (group1 r)))
     ++ " digits; use sys.set_int_max_str_digits() to increase the limit").

(** The first run whose digits are beyond the bound, if there is one. *)
Fixpoint first_unfit (rs : list run) : option run :=
  match rs with
  | [] => None
  | r :: rs' => if count_fits r then first_unfit rs' else Some r
  end.

(** A count of [n] digits, and a valid CIGAR string with one run of 4301
    digits. *)
Fixpoint ones (n : nat) : string :=
  match n with
  | O => EmptyString
  | S n' => String "1" (ones n')
  end.

Definition long_count_cigar : string := ones 4301 ++ "=".

Definition is_match (r : run) : bool := (group2 r =? "=")%char.

Definition consumes_read (r : run) : bool :=
  ((group2 r =? "=") || (group2 r =? "X") || (group2 r =? "I"))%char.

Definition consumes_reference (r : run) : bool :=
  ((group2 r =? "=") || (group2 r =? "X") || (group2 r =? "D"))%char.

Definition sum_counts (rs : list run) : Z :=
  fold_right (fun r acc => count r + acc) 0 rs.

Definition read_consumed (rs : list run) : Z :=
  sum_counts (filter consumes_read rs).

Definition reference_consumed (rs : list run) : Z :=
  sum_counts (filter consumes_reference rs).

(** The cursor after the runs [rs], from [(0, 0)]. *)
Definition cursor (rs : list run) : coord :=
  (read_consumed rs, reference_consumed rs).

(** The extent of a segment in each coordinate. *)
Definition extent (seg : coord * coord) : coord :=
  (fst (snd seg) - fst (fst seg), snd (snd seg) - snd (fst seg)).

(** The trigger of a new window, as the specification words it. *)
Definition exceeds (anchor v : coord) (W O : Z) : bool :=
  (fst anchor + (W - O) <? fst v) || (snd anchor + (W - O) <? snd v).

(** Consecutive items of a list are related by [R]. *)
Definition consecutive {A : Type} (R : A -> A -> Prop) (l : list A) : Prop :=
  forall k a b, nth_error l k = Some a -> nth_error l (S k) = Some b -> R a b.

(** ** Unrolled forms of the loops, for the proofs *)

(** The cursor after one run; a run with an unknown symbol leaves it. *)
Definition move (ij : coord) (r : run) : coord :=
  match advance ij (count r) (group2 r) with
  | Ok ij' => ij'
  | Raise _ => ij
  end.

(** The vertices appended by [coords_loop]. *)
Fixpoint trace (rs : list run) (ij : coord) : list coord :=
  match rs with
  | [] => []
  | r :: rs' => move ij r :: trace rs' (move ij r)
  end.

(** The segments appended by [match_coords_loop]. *)
Fixpoint segments (rs : list run) (ij : coord) : list (coord * coord) :=
  match rs with
  | [] => []
  | r :: rs' =>
      if is_match r
      then (ij, move ij r) :: segments rs' (move ij r)
      else segments rs' (move ij r)
  end.

(** The anchors appended by [window_starts_loop] after the anchor [a]. *)
Fixpoint anchors_after (a : coord) (path : list coord) (W O : Z)
  : list coord :=
  match path with
  | [] => []
  | v :: path' =>
      if (fst v >? fst a + W - O) || (snd v >? snd a + W - O)
      then v :: anchors_after v path' W O
      else anchors_after a path' W O
  end.

(** ** [transpose] and the two line plots *)

(** A tuple is modelled as the list of its items. *)
Definition tuple2 {A : Type} (p : A * A) : list A := [fst p; snd p].

(** [zip(row, *rest)], given [cols = zip( *rest)]: an item of [row] is put in
    front of the tuple of the same index, as long as there are both. *)
Fixpoint zip_cons {A : Type} (row : list A) (cols : list (list A))
  : list (list A) :=
  match row, cols with
  | x :: row', c :: cols' => (x :: c) :: zip_cons row' cols'
  | _, _ => []
  end.

(** [list(zip( *table))]: the tuple of index [k] holds the items of index [k]
    of the rows, for the indices that all the rows have; no row, no tuple. *)
Fixpoint transpose {A : Type} (table : list (list A)) : list (list A) :=
  match table with
  | [] => []
  | row :: rest =>
      match rest with
      | [] => map (fun x => [x]) row
      | _ :: _ => zip_cons row (transpose rest)
      end
  end.

(** The assignment [xs, ys = seq]. *)
Definition unpack2 {A : Type} (seq : list A) : result (A * A) :=
  match seq with
  | [xs; ys] => Ok (xs, ys)
  | [] => Raise (ValueError "not enough values to unpack (expected 2, got 0)")
  | [_] => Raise (ValueError "not enough values to unpack (expected 2, got 1)")
  | _ => Raise (ValueError "too many values to unpack (expected 2)")
  end.

(** One call [ax.plot(xs, ys, **plot_config)], the coordinates being of
    type [V]. *)
Record line (V K : Type) : Type :=
  mkLine { line_xs : list V; line_ys : list V; line_config : K }.

Arguments mkLine {V K} _ _ _.
Arguments line_xs {V K} _.
Arguments line_ys {V K} _.
Arguments line_config {V K} _.

Definition plot_cigar {K : Type} (cigar : string) (plot_config : K)
  : result (line Z K) :=
  alignment_path <- cigar_to_coords cigar ;;
  xy <- unpack2 (transpose (map tuple2 alignment_path)) ;;
  Ok (mkLine (fst xy) (snd xy) plot_config).

(** A coordinate of the plot of the matches is an integer or [None]. *)
Definition some_coord (p : coord) : option Z * option Z :=
  (Some (fst p), Some (snd p)).

Definition plot_cigar_matches {K : Type} (cigar : string) (plot_config : K)
  : result (line (option Z) K) :=
  match_segments <- cigar_to_match_coords cigar ;;
  let match_segments_with_nones :=
    map (fun seg : coord * coord =>
           let (match_start, match_end) := seg in
           [ tuple2 (some_coord match_start);
             tuple2 (some_coord match_end);
             tuple2 (None, None) ])
        match_segments in
  let flattened_matches := concat match_segments_with_nones in
  xy <- unpack2 (transpose flattened_matches) ;;
  Ok (mkLine (fst xy) (snd xy) plot_config).

(** ** The loop of [cigar_inspector] *)

(** A colour is a triple of float literals, kept as the rationals they
    denote; the width of a line likewise. *)
Definition rgb : Type := (Q * Q * Q)%type.

Record config : Type :=
  mkConfig { label : string; color : rgb; linestyle : string;
             linewidth : Q }.

Definition window_colors : list rgb :=
  [ (1, 0, 0); (3 # 5, 0, 0); (3 # 10, 0, 0) ]%Q.

(** What the loop does that can be seen: the lines it draws and the names
    it prints. *)
Inductive drawing : Type :=
| Edits (l : line Z config)
| Matches (l : line (option Z) config)
| Printed (name : string)
| Window (p : plot_call rgb).

(** [f"{w}"] for an integer: the sign does not count for the bound. *)
Definition format_int (w : Z) : result string :=
  if Z.of_nat (String.length (str (Z.abs w))) <=? int_max_str_digits
  then Ok (str w)
  else
    Raise (ValueError
             "Exceeds the limit (4300 digits) for integer string conversion; use sys.set_int_max_str_digits() to increase the limit").

(** [f"{W}"] for [W] an integer or [None]. *)
Definition format_opt (W : option Z) : result string :=
  match W with
  | Some w => format_int w
  | None => Ok "None"
  end.

Definition is_not_none {A : Type} (x : option A) : bool :=
  match x with
  | Some _ => true
  | None => false
  end.

(** The [for] loop of [cigar_inspector].  The result is what has been drawn
    and printed, with the exception that stopped the loop, if one did.  The
    statements after the loop configure the axes and are not modelled. *)
Fixpoint cigar_inspector (read reference : string)
  (algorithms : list (string * string * rgb)) (W O : option Z)
  : list drawing * option exn :=
  match algorithms with
  | [] => ([], None)
  | (name, cigar, color) :: rest =>
      match plot_cigar cigar
              (mkConfig (name ++ " edits") color "--" (1 # 2)) with
      | Raise e => ([], Some e)
      | Ok edits =>
          match plot_cigar_matches cigar
                  (mkConfig (name ++ " matches") color "-" 1) with
          | Raise e => ([Edits edits], Some e)
          | Ok matches =>
              let drawn := [Edits edits; Matches matches; Printed name] in
              match format_opt W with
              | Raise e => (drawn, Some e)
              | Ok shown =>
                  match (name =? "Scrooge W=" ++ shown)%string
                        && is_not_none W && is_not_none O, W, O with
                  | true, Some w, Some o =>
                      match plot_genasm_windows read reference cigar
                              window_colors w o with
                      | Raise e => (drawn, Some e)
                      | Ok windows =>
                          let (more, e) :=
                            cigar_inspector read reference rest W O in
                          (drawn ++ map Window windows ++ more, e)%list
                      end
                  | _, _, _ =>
                      let (more, e) :=
                        cigar_inspector read reference rest W O in
                      (drawn ++ more, e)%list
                  end
              end
          end
      end
  end.

(** ** The tick labels of [on_lims_change] *)

(** [range(a, b)]. *)
Definition py_range (a b : Z) : list Z :=
  map (fun k => a + Z.of_nat k) (seq 0 (Z.to_nat (b - a))).

(** [s[i]] on a string: a negative index counts from the end. *)
Definition str_getitem (s : string) (i : Z) : result ascii :=
  let n := Z.of_nat (String.length s) in
  let k := if i <? 0 then i + n else i in
  if (0 <=? k) && (k <? n) then
    match String.get (Z.to_nat k) s with
    | Some c => Ok c
    | None => Raise IndexError
    end
  else Raise IndexError.

(** A list comprehension whose items may raise. *)
Fixpoint mapM {A B : Type} (f : A -> result B) (l : list A)
  : result (list B) :=
  match l with
  | [] => Ok []
  | x :: l' => y <- f x ;; ys <- mapM f l' ;; Ok (y :: ys)
  end.

Definition newline : string := String (ascii_of_nat 10) EmptyString.

Record ticks : Type :=
  mkTicks { xticks : list Q; xticklabels : list string;
            yticks : list Q; yticklabels : list string }.

(** What the callback sets: ticks and labels per base, or the automatic
    locator and formatter. *)
Inductive tick_setting : Type :=
| PerBase (t : ticks)
| Automatic.

(** [on_lims_change] from the point where the limits are integers: [x_a],
    [x_b], [y_a] and [y_b] are the limits of the axes, sorted and truncated
    by the first lines of the callback, which work on floats and are not
    modelled.  The tick [i + 0.5] is kept as a rational.  The index in a
    label is an index of a sequence, far below the bound on the digits, and
    is written with [str]. *)
Definition on_lims_change (x_a x_b y_a y_b : Z) (read reference : string)
  : result tick_setting :=
  let x_range := x_b - x_a in
  let y_range := y_b - y_a in
  if Z.max x_range y_range <? 100 then
    let x_indices :=
      filter (fun i => (i >=? 0) && (i <? Z.of_nat (String.length read)))
        (py_range x_a (x_b + 1)) in
    let y_indices :=
      filter (fun i => (i >=? 0) && (i <? Z.of_nat (String.length reference)))
        (py_range y_a (y_b + 1)) in
    xlabels <-
      mapM (fun i =>
              c <- str_getitem read i ;;
              Ok ((if i mod 10 =? 0 then str i ++ newline else EmptyString)
                  ++ String c EmptyString))
        x_indices ;;
    ylabels <-
      mapM (fun i =>
              c <- str_getitem reference i ;;
              Ok ((if i mod 10 =? 0 then str i else EmptyString)
                  ++ String c EmptyString))
        y_indices ;;
    Ok (PerBase
          (mkTicks (map (fun i => inject_Z i + (1 # 2))%Q x_indices) xlabels
                   (map (fun i => inject_Z i + (1 # 2))%Q y_indices) ylabels))
  else Ok Automatic.

(** Order on the grid: both coordinates at most those of the other point. *)
Definition le2 (a b : coord) : Prop := fst a <= fst b /\ snd a <= snd b.

(** Runs with text between them: [sep] before each run, free of digits. *)
Fixpoint no_digit (s : string) : bool :=
  match s with
  | EmptyString => true
  | String c t => negb (is_digit c) && no_digit t
  end.

Fixpoint interleaved_text (parts : list (string * run)) (tail : string)
  : string :=
  match parts with
  | [] => tail
  | (sep, r) :: parts' => sep ++ run_text r ++ interleaved_text parts' tail
  end.

(** A point moved by a vector. *)
Definition translate (d p : coord) : coord := (fst d + fst p, snd d + snd p).

(** * Properties *)

(** ** The concrete cases of the specification *)

Example case1_path :
  cigar_to_coords "3=2X1I4=" = Ok [(0,0); (3,3); (5,5); (6,5); (10,9)].
Proof. reflexivity. Qed.

Example case1_segments :
  cigar_to_match_coords "3=2X1I4="
  = Ok [((0,0), (3,3)); ((6,5), (10,9))].
Proof. reflexivity. Qed.

Example case2_path : cigar_to_coords "2D3=" = Ok [(0,0); (0,2); (3,5)].
Proof. reflexivity. Qed.

Example case2_segments :
  cigar_to_match_coords "2D3=" = Ok [((0,2), (3,5))].
Proof. reflexivity. Qed.

Example skipped_text :
  finditer "a12b3=7 =4X5" = [mkRun "3" "="; mkRun "4" "X"].
Proof. reflexivity. Qed.

(** ** Strings *)

Lemma append_length (s t : string) :
  String.length (s ++ t) = (String.length s + String.length t)%nat.
Proof. induction s as [|c s IH]; simpl; [reflexivity | now rewrite IH]. Qed.

Lemma append_assoc (s t u : string) : (s ++ t) ++ u = s ++ t ++ u.
Proof. induction s as [|c s IH]; simpl; [reflexivity | now rewrite IH]. Qed.

(** ** The scan *)

Lemma edit_symbol_not_digit (c : ascii) :
  is_edit_symbol c = true -> is_digit c = false.
Proof.
  unfold is_edit_symbol. intros H.
  repeat (apply orb_true_iff in H; destruct H as [H|H]);
    apply Ascii.eqb_eq in H; subst c; reflexivity.
Qed.

Lemma span_digits_spec (s : string) :
  s = fst (span_digits s) ++ snd (span_digits s)
  /\ all_digits (fst (span_digits s)) = true.
Proof.
  induction s as [|c t IH]; simpl; [split; reflexivity|].
  destruct (is_digit c) eqn:Hc; [|split; reflexivity].
  destruct (span_digits t) as [d r]; simpl in *.
  destruct IH as [IH1 IH2]. rewrite Hc, IH2. split; [now f_equal | reflexivity].
Qed.

Lemma span_digits_app (d : string) (c : ascii) (t : string) :
  all_digits d = true -> is_digit c = false ->
  span_digits (d ++ String c t) = (d, String c t).
Proof.
  intros Hd Hc. induction d as [|x d IH]; simpl.
  - now rewrite Hc.
  - simpl in Hd. apply andb_true_iff in Hd. destruct Hd as [Hx Hd].
    now rewrite Hx, (IH Hd).
Qed.

(** A match is a well-formed run, the string starts with its text, and the
    rest is what follows. *)
Lemma match_at_spec (s : string) (m : run) (rest : string) :
  match_at s = Some (m, rest) ->
  well_formed_run m = true /\ s = run_text m ++ rest.
Proof.
  unfold match_at. intros H.
  destruct (span_digits_spec s) as [Hs Hd].
  destruct (span_digits s) as [d r]; simpl in *.
  destruct d as [|c0 d]; [discriminate|].
  destruct r as [|c r]; [discriminate|].
  destruct (is_edit_symbol c) eqn:Hc; [|discriminate].
  injection H as <- <-. split.
  - unfold well_formed_run. cbn [group1 group2].
    now rewrite Hd, Hc.
  - unfold run_text. cbn [group1 group2]. rewrite Hs.
    now rewrite append_assoc.
Qed.

Lemma match_at_run (r : run) (rest : string) :
  well_formed_run r = true -> match_at (run_text r ++ rest) = Some (r, rest).
Proof.
  destruct r as [d c]. unfold well_formed_run, run_text. cbn [group1 group2].
  intros H. apply andb_true_iff in H. destruct H as [H Hc].
  apply andb_true_iff in H. destruct H as [Hne Hd].
  unfold match_at. rewrite append_assoc. simpl.
  rewrite (span_digits_app d c rest Hd (edit_symbol_not_digit c Hc)).
  destruct d as [|c0 d]; [discriminate|]. now rewrite Hc.
Qed.

Lemma match_at_shorter (s : string) (m : run) (rest : string) :
  match_at s = Some (m, rest) ->
  (String.length rest < String.length s)%nat.
Proof.
  intros H. apply match_at_spec in H. destruct H as [_ ->].
  unfold run_text. rewrite !append_length. simpl. lia.
Qed.

(** The scan does not depend on the fuel, once there is enough of it. *)
Lemma finditer_from_enough (n m : nat) (s : string) :
  (String.length s <= n)%nat -> (String.length s <= m)%nat ->
  finditer_from n s = finditer_from m s.
Proof.
  revert m s. induction n as [|n IH]; intros m s Hn Hm.
  - destruct s; [|simpl in Hn; lia]. destruct m; reflexivity.
  - destruct m as [|m].
    + destruct s; [|simpl in Hm; lia]. reflexivity.
    + simpl. destruct (match_at s) as [[r rest]|] eqn:Hs.
      * apply match_at_shorter in Hs. f_equal. apply IH; lia.
      * destruct s as [|c t]; [reflexivity|]. simpl in Hn, Hm.
        apply IH; lia.
Qed.

(** The two equations of the scan, free of fuel. *)
Lemma finditer_match (s : string) (m : run) (rest : string) :
  match_at s = Some (m, rest) -> finditer s = m :: finditer rest.
Proof.
  intros H. pose proof (match_at_shorter _ _ _ H) as Hlt.
  unfold finditer. destruct (String.length s) as [|n] eqn:Hn; [lia|].
  simpl. rewrite H. f_equal. apply finditer_from_enough; lia.
Qed.

Lemma finditer_skip (c : ascii) (t : string) :
  match_at (String c t) = None -> finditer (String c t) = finditer t.
Proof.
  intros H. unfold finditer. simpl String.length.
  cbn [finditer_from]. rewrite H. reflexivity.
Qed.

Lemma finditer_empty : finditer EmptyString = [].
Proof. reflexivity. Qed.

(** Whatever the string, the scan yields well-formed runs only. *)
Lemma finditer_well_formed (s : string) :
  forallb well_formed_run (finditer s) = true.
Proof.
  unfold finditer. generalize (String.length s) as n. intros n. revert s.
  induction n as [|n IH]; intros s; [reflexivity|].
  simpl. destruct (match_at s) as [[r rest]|] eqn:Hs.
  - simpl. apply match_at_spec in Hs. destruct Hs as [-> _]. apply IH.
  - destruct s; [reflexivity | apply IH].
Qed.

(** On a valid CIGAR string the scan yields its runs. *)
Lemma finditer_cigar_text (rs : list run) :
  forallb well_formed_run rs = true -> finditer (cigar_text rs) = rs.
Proof.
  induction rs as [|r rs IH]; intros H; [reflexivity|].
  simpl in H. apply andb_true_iff in H. destruct H as [Hr Hrs].
  simpl. rewrite (finditer_match _ _ _ (match_at_run r _ Hr)).
  now rewrite (IH Hrs).
Qed.

Lemma valid_cigar_runs (cigar : string) (rs : list run) :
  valid_cigar cigar rs -> finditer cigar = rs.
Proof. intros [Hwf ->]. now apply finditer_cigar_text. Qed.

(** The runs of a valid CIGAR string are determined by the string. *)
Lemma valid_cigar_unique (cigar : string) (rs rs' : list run) :
  valid_cigar cigar rs -> valid_cigar cigar rs' -> rs = rs'.
Proof.
  intros H H'. apply valid_cigar_runs in H, H'. congruence.
Qed.

(** A string is valid exactly when the scan covers all of it. *)
Lemma valid_cigar_iff_covered (cigar : string) :
  (exists rs, valid_cigar cigar rs) <-> cigar_text (finditer cigar) = cigar.
Proof.
  split.
  - intros [rs H]. rewrite (valid_cigar_runs _ _ H). destruct H as [_ ->].
    reflexivity.
  - intros H. exists (finditer cigar). split;
      [apply finditer_well_formed | now symmetry].
Qed.

(** ** Counts *)

Lemma digit_value_range (c : ascii) :
  is_digit c = true -> 0 <= digit_value c <= 9.
Proof.
  unfold is_digit, digit_value. intros H.
  apply andb_true_iff in H. destruct H as [H1 H2].
  apply Nat.leb_le in H1, H2. lia.
Qed.

Lemma int_from_nonneg (s : string) (acc : Z) :
  all_digits s = true -> 0 <= acc -> 0 <= int_from acc s.
Proof.
  revert acc. induction s as [|c t IH]; intros acc Hd Hacc; cbn [int_from];
    [exact Hacc|].
  cbn [all_digits] in Hd. apply andb_true_iff in Hd. destruct Hd as [Hc Ht].
  apply IH; [exact Ht|]. pose proof (digit_value_range c Hc). lia.
Qed.

Lemma count_nonneg (r : run) : well_formed_run r = true -> 0 <= count r.
Proof.
  unfold well_formed_run, count, int. intros H.
  apply andb_true_iff in H. destruct H as [H _].
  apply andb_true_iff in H. destruct H as [_ H].
  apply int_from_nonneg; [exact H | lia].
Qed.

(** ** One run *)

Ltac case_symbol c :=
  let E1 := fresh "E" in let E2 := fresh "E" in
  let E3 := fresh "E" in let E4 := fresh "E" in
  destruct (Ascii.eqb c "=") eqn:E1; [apply Ascii.eqb_eq in E1; subst c|];
  [|destruct (Ascii.eqb c "X") eqn:E2; [apply Ascii.eqb_eq in E2; subst c|];
    [|destruct (Ascii.eqb c "I") eqn:E3; [apply Ascii.eqb_eq in E3; subst c|];
      [|destruct (Ascii.eqb c "D") eqn:E4;
        [apply Ascii.eqb_eq in E4; subst c|]]]].

(** The last branch of the chain is dead on the runs of the scan. *)
Lemma advance_edit_symbol (ij : coord) (r : run) :
  is_edit_symbol (group2 r) = true ->
  advance ij (count r) (group2 r) = Ok (move ij r).
Proof.
  destruct r as [d c], ij as [i j]. unfold move, is_edit_symbol, advance.
  cbn [group1 group2]. case_symbol c; cbn; intros H;
    [reflexivity .. | discriminate].
Qed.

Lemma well_formed_symbol (r : run) :
  well_formed_run r = true -> is_edit_symbol (group2 r) = true.
Proof.
  unfold well_formed_run. intros H. apply andb_true_iff in H. tauto.
Qed.

(** What a run adds to the cursor, coordinate by coordinate. *)
Lemma move_spec (ij : coord) (r : run) :
  move ij r
  = (fst ij + (if consumes_read r then count r else 0),
     snd ij + (if consumes_reference r then count r else 0)).
Proof.
  destruct r as [d c], ij as [i j].
  unfold move, advance, consumes_read, consumes_reference.
  cbn [group1 group2 fst snd].
  case_symbol c; cbn; f_equal; lia.
Qed.

Lemma move_match (ij : coord) (r : run) :
  is_match r = true -> move ij r = (fst ij + count r, snd ij + count r).
Proof.
  intros H. rewrite move_spec. unfold is_match in H.
  unfold consumes_read, consumes_reference. now rewrite H.
Qed.

Lemma move_monotone (ij : coord) (r : run) :
  0 <= count r -> fst ij <= fst (move ij r) /\ snd ij <= snd (move ij r).
Proof.
  intros H. rewrite move_spec. cbn [fst snd].
  destruct (consumes_read r), (consumes_reference r); lia.
Qed.

Lemma fold_move_cursor (rs : list run) (ij : coord) :
  fold_left move rs ij
  = (fst ij + read_consumed rs, snd ij + reference_consumed rs).
Proof.
  revert ij. induction rs as [|r rs IH]; intros [i j].
  - cbn. f_equal; lia.
  - cbn [fold_left]. rewrite IH, move_spec.
    unfold read_consumed, reference_consumed. cbn [filter fst snd].
    destruct (consumes_read r), (consumes_reference r);
      cbn [sum_counts fold_right]; f_equal; fold (sum_counts (filter consumes_read rs));
      fold (sum_counts (filter consumes_reference rs)); lia.
Qed.

Lemma fold_move_origin (rs : list run) : fold_left move rs (0, 0) = cursor rs.
Proof. rewrite fold_move_cursor. reflexivity. Qed.

(** ** The loops, unrolled *)

(** [int] on the digits of a run: its count, or the error of the bound. *)
Lemma int_count (r : run) :
  int (group1 r) = if count_fits r then Ok (count r) else Raise (count_error r).
Proof. unfold int, count_fits, count, count_error. now destruct (_ <=? _). Qed.

Lemma first_unfit_none (rs : list run) :
  first_unfit rs = None <-> forallb count_fits rs = true.
Proof.
  induction rs as [|r rs IH]; [tauto|].
  cbn [first_unfit forallb]. destruct (count_fits r); cbn [andb];
    [exact IH | split; discriminate].
Qed.

Lemma first_unfit_some (rs : list run) (r : run) :
  first_unfit rs = Some r -> In r rs /\ count_fits r = false.
Proof.
  induction rs as [|r0 rs IH]; [discriminate|].
  cbn [first_unfit]. destruct (count_fits r0) eqn:E.
  - intros H. destruct (IH H) as [H1 H2]. split; [right; exact H1 | exact H2].
  - intros H. injection H as <-. split; [left; reflexivity | exact E].
Qed.

(** The loops return the unrolled path and segments unless the digits of a
    run are beyond the bound; then they raise the error of [int] on the
    first such run. *)
Lemma coords_loop_spec (rs : list run) (ij : coord) (res : list coord) :
  forallb well_formed_run rs = true ->
  coords_loop rs ij res
  = match first_unfit rs with
    | None => Ok (res ++ trace rs ij)%list
    | Some r => Raise (count_error r)
    end.
Proof.
  revert ij res. induction rs as [|r rs IH]; intros ij res H.
  - cbn. now rewrite app_nil_r.
  - cbn in H. apply andb_true_iff in H. destruct H as [Hr Hrs].
    cbn [coords_loop trace first_unfit]. rewrite int_count.
    destruct (count_fits r); [|reflexivity]. cbn [bind].
    rewrite (advance_edit_symbol ij r (well_formed_symbol r Hr)).
    cbn [bind]. rewrite (IH _ _ Hrs).
    destruct (first_unfit rs); [reflexivity|].
    now rewrite <- app_assoc.
Qed.

Lemma match_coords_loop_spec (rs : list run) (ij : coord)
  (res : list (coord * coord)) :
  forallb well_formed_run rs = true ->
  match_coords_loop rs ij res
  = match first_unfit rs with
    | None => Ok (res ++ segments rs ij)%list
    | Some r => Raise (count_error r)
    end.
Proof.
  revert ij res. induction rs as [|r rs IH]; intros ij res H.
  - cbn. now rewrite app_nil_r.
  - cbn in H. apply andb_true_iff in H. destruct H as [Hr Hrs].
    cbn [match_coords_loop segments first_unfit]. rewrite int_count.
    destruct (count_fits r); [|reflexivity]. cbn [bind].
    rewrite (advance_edit_symbol ij r (well_formed_symbol r Hr)).
    cbn [bind]. fold (is_match r). destruct (is_match r).
    + rewrite (IH _ _ Hrs). destruct (first_unfit rs); [reflexivity|].
      now rewrite <- app_assoc.
    + apply (IH _ _ Hrs).
Qed.

Lemma cigar_to_coords_spec (cigar : string) :
  cigar_to_coords cigar
  = match first_unfit (finditer cigar) with
    | None => Ok ((0, 0) :: trace (finditer cigar) (0, 0))
    | Some r => Raise (count_error r)
    end.
Proof.
  unfold cigar_to_coords.
  now rewrite coords_loop_spec by apply finditer_well_formed.
Qed.

Lemma cigar_to_match_coords_spec (cigar : string) :
  cigar_to_match_coords cigar
  = match first_unfit (finditer cigar) with
    | None => Ok (segments (finditer cigar) (0, 0))
    | Some r => Raise (count_error r)
    end.
Proof.
  unfold cigar_to_match_coords.
  now rewrite match_coords_loop_spec by apply finditer_well_formed.
Qed.

Lemma cigar_to_coords_trace (cigar : string) :
  first_unfit (finditer cigar) = None ->
  cigar_to_coords cigar = Ok ((0, 0) :: trace (finditer cigar) (0, 0)).
Proof. intros H. now rewrite cigar_to_coords_spec, H. Qed.

Lemma cigar_to_match_coords_segments (cigar : string) :
  first_unfit (finditer cigar) = None ->
  cigar_to_match_coords cigar = Ok (segments (finditer cigar) (0, 0)).
Proof. intros H. now rewrite cigar_to_match_coords_spec, H. Qed.

(** What a decoder has returned is the unrolled result, and no run of the
    string is beyond the bound. *)
Lemma cigar_to_coords_returns (cigar : string) (path : list coord) :
  cigar_to_coords cigar = Ok path ->
  first_unfit (finditer cigar) = None
  /\ path = (0, 0) :: trace (finditer cigar) (0, 0).
Proof.
  rewrite cigar_to_coords_spec.
  destruct (first_unfit (finditer cigar)); [discriminate|].
  intros H. injection H as <-. split; reflexivity.
Qed.

Lemma cigar_to_match_coords_returns (cigar : string)
  (segs : list (coord * coord)) :
  cigar_to_match_coords cigar = Ok segs ->
  first_unfit (finditer cigar) = None
  /\ segs = segments (finditer cigar) (0, 0).
Proof.
  rewrite cigar_to_match_coords_spec.
  destruct (first_unfit (finditer cigar)); [discriminate|].
  intros H. injection H as <-. split; reflexivity.
Qed.

(** ** The path *)

Lemma trace_length (rs : list run) (ij : coord) :
  List.length (trace rs ij) = List.length rs.
Proof.
  revert ij. induction rs as [|r rs IH]; intros ij; cbn;
    [reflexivity | now rewrite IH].
Qed.

(** The vertex of index [k] is the cursor after the first [k] runs. *)
Lemma trace_nth (rs : list run) (ij : coord) (k : nat) :
  (k <= List.length rs)%nat ->
  nth_error (ij :: trace rs ij) k = Some (fold_left move (firstn k rs) ij).
Proof.
  revert ij k. induction rs as [|r rs IH]; intros ij k Hk.
  - cbn in Hk. assert (k = 0%nat) as -> by lia. reflexivity.
  - destruct k as [|k]; [reflexivity|].
    cbn [trace length firstn fold_left nth_error] in *.
    apply (IH (move ij r) k). lia.
Qed.

Lemma trace_step (rs : list run) (ij : coord) (k : nat) (r : run) (a : coord) :
  nth_error rs k = Some r ->
  nth_error (ij :: trace rs ij) k = Some a ->
  nth_error (ij :: trace rs ij) (S k) = Some (move a r).
Proof.
  revert ij k a. induction rs as [|r0 rs IH]; intros ij k a Hr Ha.
  - destruct k; discriminate.
  - destruct k as [|k].
    + cbn in Hr, Ha. injection Hr as ->. injection Ha as ->. reflexivity.
    + cbn [nth_error trace] in *. apply (IH (move ij r0) k a Hr Ha).
Qed.

Lemma trace_last (rs : list run) (ij d : coord) :
  last (ij :: trace rs ij) d = fold_left move rs ij.
Proof.
  revert ij. induction rs as [|r rs IH]; intros ij; [reflexivity|].
  cbn [trace fold_left]. rewrite <- IH. reflexivity.
Qed.

Lemma last_item_cons {A : Type} (x : A) (l : list A) (d : A) :
  last_item (x :: l) = Ok (last (x :: l) d).
Proof.
  revert x. induction l as [|y l IH]; intros x; [reflexivity|].
  change (last_item (x :: y :: l)) with (last_item (y :: l)).
  change (last (x :: y :: l) d) with (last (y :: l) d). apply IH.
Qed.

Lemma well_formed_nth (rs : list run) (k : nat) (r : run) :
  forallb well_formed_run rs = true -> nth_error rs k = Some r ->
  well_formed_run r = true.
Proof.
  intros H Hk. rewrite forallb_forall in H. apply H.
  eapply nth_error_In, Hk.
Qed.

(** Along the path of well-formed runs no coordinate decreases. *)
Lemma trace_monotone (rs : list run) (ij : coord) :
  forallb well_formed_run rs = true ->
  consecutive (fun a b => fst a <= fst b /\ snd a <= snd b)
    (ij :: trace rs ij).
Proof.
  intros Hwf k a b Ha Hb. change (Z * Z)%type with coord in *.
  assert (Hk : (k < List.length rs)%nat).
  { assert (H : nth_error (ij :: trace rs ij) (S k) <> None)
      by (rewrite Hb; discriminate).
    apply nth_error_Some in H. cbn [List.length] in H.
    rewrite trace_length in H. lia. }
  destruct (nth_error rs k) as [r|] eqn:Hr;
    [|apply nth_error_None in Hr; lia].
  rewrite (trace_step rs ij k r a Hr Ha) in Hb. injection Hb as <-.
  apply move_monotone, count_nonneg, (well_formed_nth rs k r Hwf Hr).
Qed.

(** ** The segments *)

Lemma segments_length (rs : list run) (ij : coord) :
  List.length (segments rs ij) = List.length (filter is_match rs).
Proof.
  revert ij. induction rs as [|r rs IH]; intros ij; [reflexivity|].
  cbn [segments filter]. destruct (is_match r); cbn [List.length];
    now rewrite IH.
Qed.

Lemma segments_extent (rs : list run) (ij : coord) :
  map extent (segments rs ij)
  = map (fun r => (count r, count r)) (filter is_match rs).
Proof.
  revert ij. induction rs as [|r rs IH]; intros ij; [reflexivity|].
  cbn [segments filter]. destruct (is_match r) eqn:Hr; [|apply IH].
  cbn [map]. rewrite IH. f_equal.
  unfold extent. rewrite (move_match ij r Hr). cbn [fst snd].
  f_equal; lia.
Qed.

(** The segment of a [=] run lies between the cursor before the run and the
    cursor after it, and comes after the segments of the [=] runs before. *)
Lemma segments_nth (rs : list run) (ij : coord) (k : nat) (r : run) :
  nth_error rs k = Some r -> is_match r = true ->
  nth_error (segments rs ij) (List.length (filter is_match (firstn k rs)))
  = Some (fold_left move (firstn k rs) ij,
          fold_left move (firstn (S k) rs) ij).
Proof.
  revert ij k. induction rs as [|r0 rs IH]; intros ij k Hk Hr.
  - destruct k; discriminate.
  - destruct k as [|k].
    + cbn in Hk. injection Hk as ->. cbn [firstn filter List.length segments].
      rewrite Hr. reflexivity.
    + cbn [nth_error] in Hk.
      change (firstn (S (S k)) (r0 :: rs)) with (r0 :: firstn (S k) rs).
      cbn [firstn filter segments fold_left].
      destruct (is_match r0); cbn [List.length nth_error];
        apply (IH _ _ Hk Hr).
Qed.

Lemma segments_in (rs : list run) (ij : coord) (seg : coord * coord) :
  In seg (segments rs ij) ->
  exists k r, nth_error rs k = Some r /\ is_match r = true
    /\ nth_error (ij :: trace rs ij) k = Some (fst seg)
    /\ nth_error (ij :: trace rs ij) (S k) = Some (snd seg).
Proof.
  revert ij. induction rs as [|r0 rs IH]; intros ij H; [destruct H|].
  cbn [segments] in H.
  assert (Hrest : In seg (segments rs (move ij r0)) ->
    exists k r, nth_error (r0 :: rs) k = Some r /\ is_match r = true
      /\ nth_error (ij :: trace (r0 :: rs) ij) k = Some (fst seg)
      /\ nth_error (ij :: trace (r0 :: rs) ij) (S k) = Some (snd seg)).
  { intros H'. destruct (IH _ H') as (k & r & H1 & H2 & H3 & H4).
    exists (S k), r. repeat split; assumption. }
  destruct (is_match r0) eqn:Hr0; [|exact (Hrest H)].
  destruct H as [<-|H]; [|exact (Hrest H)].
  exists 0%nat, r0. repeat split; [exact Hr0].
Qed.

Lemma segments_combine (rs : list run) (ij : coord) :
  segments rs ij
  = map snd (filter (fun p => is_match (fst p))
               (combine rs (combine (ij :: trace rs ij) (trace rs ij)))).
Proof.
  revert ij. induction rs as [|r rs IH]; intros ij; [reflexivity|].
  cbn [segments trace combine filter fst].
  destruct (is_match r); cbn [map snd]; now rewrite IH.
Qed.

(** ** The anchors *)

Lemma last_item_snoc {A : Type} (l : list A) (x : A) :
  last_item (l ++ [x]) = Ok x.
Proof.
  induction l as [|y l IH]; [reflexivity|].
  cbn [app]. destruct (l ++ [x])%list eqn:E; [|exact IH].
  destruct l; discriminate.
Qed.

(** The comparison of the code is the one of the specification. *)
Lemma trigger_exceeds (anchor v : coord) (W O : Z) :
  (fst v >? fst anchor + W - O) || (snd v >? snd anchor + W - O)
  = exceeds anchor v W O.
Proof.
  unfold exceeds. rewrite !Z.gtb_ltb, <- !Z.add_sub_assoc. reflexivity.
Qed.

Lemma window_starts_loop_anchors (path : list coord) (W O : Z)
  (window_starts : list coord) (a : coord) :
  last_item window_starts = Ok a ->
  window_starts_loop path W O window_starts
  = Ok (window_starts ++ anchors_after a path W O)%list.
Proof.
  revert window_starts a.
  induction path as [|[i j] path IH]; intros ws a Ha.
  - cbn. now rewrite app_nil_r.
  - cbn [window_starts_loop anchors_after fst snd]. rewrite Ha. cbn [bind].
    destruct ((i >? fst a + W - O) || (j >? snd a + W - O)).
    + etransitivity; [apply (IH _ (i, j)), last_item_snoc|].
      now rewrite <- app_assoc.
    + apply (IH _ a Ha).
Qed.

Lemma compute_window_starts_anchors (path : list coord) (W O : Z) :
  compute_window_starts path W O
  = Ok ((0, 0) :: anchors_after (0, 0) path W O).
Proof.
  unfold compute_window_starts.
  now rewrite (window_starts_loop_anchors path W O [(0, 0)] (0, 0)).
Qed.

Lemma anchors_after_length (a : coord) (path : list coord) (W O : Z) :
  (List.length (anchors_after a path W O) <= List.length path)%nat.
Proof.
  revert a. induction path as [|v path IH]; intros a; cbn; [lia|].
  destruct (_ || _); cbn; [specialize (IH v) | specialize (IH a)]; lia.
Qed.

(** One more vertex at the end of the path: one more turn of the loop. *)
Lemma window_starts_loop_snoc (path : list coord) (v : coord) (W O : Z)
  (window_starts : list coord) :
  window_starts_loop (path ++ [v]) W O window_starts
  = (ws <- window_starts_loop path W O window_starts ;;
     anchor <- last_item ws ;;
     Ok (if exceeds anchor v W O then (ws ++ [v])%list else ws)).
Proof.
  revert window_starts. induction path as [|[i j] path IH]; intros ws.
  - destruct v as [i j]. cbn [app window_starts_loop bind].
    destruct (last_item ws) as [a|e]; [|reflexivity]. cbn [bind].
    rewrite <- (trigger_exceeds a (i, j) W O). cbn [fst snd].
    destruct (_ || _); reflexivity.
  - cbn [app window_starts_loop].
    destruct (last_item ws) as [a|e]; [|reflexivity]. cbn [bind].
    destruct (_ || _); apply IH.
Qed.

Lemma consecutive_cons {A : Type} (R : A -> A -> Prop) (a b : A)
  (l : list A) :
  R a b -> consecutive R (b :: l) -> consecutive R (a :: b :: l).
Proof.
  intros Hab Hl [|k] x y Hx Hy.
  - cbn in Hx, Hy. injection Hx as <-. injection Hy as <-. exact Hab.
  - exact (Hl k x y Hx Hy).
Qed.

Lemma consecutive_single {A : Type} (R : A -> A -> Prop) (a : A) :
  consecutive R [a].
Proof. intros k x y _ Hy. destruct k; discriminate. Qed.

(** With [O <= W] a new anchor lies strictly beyond the last one in one of
    the coordinates. *)
Lemma anchors_after_advance (a : coord) (path : list coord) (W O : Z) :
  O <= W ->
  consecutive (fun a b => fst a < fst b \/ snd a < snd b)
    (a :: anchors_after a path W O).
Proof.
  intros HWO. revert a.
  induction path as [|v path IH]; intros a; [apply consecutive_single|].
  cbn [anchors_after].
  destruct (_ || _) eqn:E; [|apply IH].
  apply consecutive_cons; [|apply IH].
  apply orb_true_iff in E. rewrite !Z.gtb_ltb, !Z.ltb_lt in E.
  cbn beta. lia.
Qed.

(** ** The window polygons *)

Lemma color_at_nonempty {C : Type} (colors : list C) (i : nat) :
  colors <> [] ->
  exists c, color_at colors i = Ok c
    /\ nth_error colors (i mod List.length colors) = Some c.
Proof.
  intros Hne. unfold color_at.
  destruct colors as [|c0 colors]; [contradiction|].
  set (n := List.length (c0 :: colors)).
  assert (Hn : (i mod n < n)%nat) by (apply Nat.mod_upper_bound; discriminate).
  change (List.length (c0 :: colors)) with n.
  destruct (nth_error (c0 :: colors) (i mod n)) as [c|] eqn:E.
  - exists c. subst n. cbn [List.length]. split; reflexivity.
  - apply nth_error_None in E. fold n in E. lia.
Qed.

Lemma plot_windows_loop_calls {C : Type} (window_starts : list coord)
  (i : nat) (W : Z) (read reference : string) (colors : list C) :
  colors <> [] ->
  exists calls,
    plot_windows_loop i window_starts W read reference colors = Ok calls
    /\ List.length calls = List.length window_starts
    /\ forall k a, nth_error window_starts k = Some a ->
         exists call, nth_error calls k = Some call
           /\ plot_xs call = map fst (window_polygon a W read reference)
           /\ plot_ys call = map snd (window_polygon a W read reference)
           /\ nth_error colors ((i + k) mod List.length colors)
              = Some (plot_color call).
Proof.
  intros Hne. revert i.
  induction window_starts as [|a0 ws IH]; intros i.
  - exists []. repeat split. intros [|k] a H; discriminate.
  - cbn [plot_windows_loop].
    destruct (color_at_nonempty colors i Hne) as (c & Hc & Hnth).
    destruct (IH (S i)) as (calls & Hcalls & Hlen & Hk).
    rewrite Hc, Hcalls. cbn [bind]. eexists. split; [reflexivity|].
    split; [cbn [List.length]; now rewrite Hlen|].
    intros [|k] a Ha.
    + cbn in Ha. injection Ha as <-. eexists. split; [reflexivity|].
      cbn [plot_xs plot_ys plot_color]. rewrite Nat.add_0_r. tauto.
    + cbn [nth_error] in Ha |- *. destruct (Hk k a Ha) as (call & H1 & H2 & H3 & H4).
      exists call. rewrite <- Nat.add_succ_comm. tauto.
Qed.

(** * The claims *)

(** A decoder raises on the digits of a run only, when they are more than
    the bound of [int]: the scan hands the loops runs whose symbol is one of
    [=], [X], [I], [D], and all other text is passed over. *)
Lemma decoders_raise_on_long_count_only (cigar : string) (e : exn) :
  cigar_to_coords cigar = Raise e \/ cigar_to_match_coords cigar = Raise e ->
  exists r, In r (finditer cigar) /\ count_fits r = false
    /\ e = count_error r.
Proof.
  rewrite cigar_to_coords_spec, cigar_to_match_coords_spec.
  destruct (first_unfit (finditer cigar)) as [r|] eqn:E.
  - apply first_unfit_some in E. destruct E as [Hin Hfit].
    intros [H|H]; injection H as <-; exists r; repeat split; assumption.
  - intros [H|H]; discriminate.
Qed.

(** C1: a string with a run that is outside the grammar should make the
    decoders fail with an error and return nothing.  On ["3=2Z"] they do
    not: the last branch of the chain would raise [ValueError] on the symbol
    [Z], but the scan finds the run [3=] alone and passes over the text
    [2Z], so that the branch is not reached and both decoders return the
    decode of [3=]. *)
Theorem unknown_symbol_not_rejected :
  advance (3, 3) 2 "Z"
  = Raise (ValueError "cigar string has unknown edit type Z")
  /\ finditer "3=2Z" = [mkRun "3" "="]
  /\ cigar_to_coords "3=2Z" = Ok [(0, 0); (3, 3)]
  /\ cigar_to_match_coords "3=2Z" = Ok [((0, 0), (3, 3))].
Proof. repeat split. Qed.

(** C2, amended: on a valid CIGAR string whose counts have at most 4300
    digits each [cigar_to_coords] returns a path with one vertex more than
    the string has runs; the first vertex is [(0, 0)], and the vertex after
    the one of index [k] is the cursor moved by the run of index [k]. *)
Theorem cigar_to_coords_vertices (cigar : string) (rs : list run) :
  valid_cigar cigar rs -> forallb count_fits rs = true ->
  exists path,
    cigar_to_coords cigar = Ok path
    /\ List.length path = S (List.length rs)
    /\ nth_error path 0 = Some (0, 0)
    /\ forall k r, nth_error rs k = Some r ->
         exists a b,
           nth_error path k = Some a /\ nth_error path (S k) = Some b
           /\ advance a (count r) (group2 r) = Ok b.
Proof.
  intros H Hfit. pose proof (valid_cigar_runs _ _ H) as Hruns.
  destruct H as [Hwf _].
  exists ((0, 0) :: trace rs (0, 0)).
  rewrite cigar_to_coords_trace
    by (rewrite Hruns; apply first_unfit_none, Hfit).
  rewrite Hruns.
  split; [reflexivity|].
  split; [cbn [List.length]; now rewrite trace_length|].
  split; [reflexivity|].
  intros k r Hr.
  assert (Hk : (k < List.length rs)%nat)
    by (apply nth_error_Some; rewrite Hr; discriminate).
  pose proof (trace_nth rs (0, 0) k (Nat.lt_le_incl _ _ Hk)) as Ha.
  exists (fold_left move (firstn k rs) (0, 0)),
    (move (fold_left move (firstn k rs) (0, 0)) r).
  split; [exact Ha|].
  split; [exact (trace_step rs (0, 0) k r _ Hr Ha)|].
  apply advance_edit_symbol, well_formed_symbol,
    (well_formed_nth rs k r Hwf Hr).
Qed.

Lemma cigar_to_coords_vertices_witness :
  valid_cigar "3=2X1I4="
    [mkRun "3" "="; mkRun "2" "X"; mkRun "1" "I"; mkRun "4" "="]
  /\ forallb count_fits
       [mkRun "3" "="; mkRun "2" "X"; mkRun "1" "I"; mkRun "4" "="] = true
  /\ exists path,
       cigar_to_coords "3=2X1I4=" = Ok path
       /\ List.length path = 5%nat
       /\ nth_error path 0 = Some (0, 0)
       /\ forall k r,
            nth_error
              [mkRun "3" "="; mkRun "2" "X"; mkRun "1" "I"; mkRun "4" "="] k
            = Some r ->
            exists a b,
              nth_error path k = Some a /\ nth_error path (S k) = Some b
              /\ advance a (count r) (group2 r) = Ok b.
Proof.
  split; [split; reflexivity|]. split; [reflexivity|].
  apply (cigar_to_coords_vertices "3=2X1I4="
           [mkRun "3" "="; mkRun "2" "X"; mkRun "1" "I"; mkRun "4" "="]).
  - split; reflexivity.
  - reflexivity.
Defined.

(** Without the bound on the digits the statement fails: the string made of
    4301 ones and [=] is valid, of one run, and on it [int] raises, so that
    [cigar_to_coords] returns no path at all, of two vertices or other. *)
Lemma long_count_has_no_path :
  valid_cigar long_count_cigar [mkRun (ones 4301) "="]
  /\ cigar_to_coords long_count_cigar
     = Raise (ValueError
                "Exceeds the limit (4300 digits) for integer string conversion: value has 4301 digits; use sys.set_int_max_str_digits() to increase the limit")
  /\ ~ (exists path,
          cigar_to_coords long_count_cigar = Ok path
          /\ List.length path = 2%nat).
Proof.
  assert (H : cigar_to_coords long_count_cigar
              = Raise (ValueError
                         "Exceeds the limit (4300 digits) for integer string conversion: value has 4301 digits; use sys.set_int_max_str_digits() to increase the limit"))
    by (vm_compute; reflexivity).
  split; [split; vm_compute; reflexivity|]. split; [exact H|].
  intros (path & Hpath & _). rewrite H in Hpath. discriminate.
Qed.

(** C3: on a valid CIGAR string the last vertex of the path that
    [cigar_to_coords] returns is the sum of the counts of the [=], [X] and
    [I] runs, paired with the sum of the counts of the [=], [X] and [D]
    runs; and the path is returned when no count has more than 4300
    digits. *)
Theorem cigar_to_coords_final_vertex (cigar : string) (rs : list run) :
  valid_cigar cigar rs ->
  (forallb count_fits rs = true -> exists path, cigar_to_coords cigar = Ok path)
  /\ forall path,
       cigar_to_coords cigar = Ok path ->
       last_item path = Ok (read_consumed rs, reference_consumed rs).
Proof.
  intros H. pose proof (valid_cigar_runs _ _ H) as Hruns. split.
  - intros Hfit. eexists. apply cigar_to_coords_trace.
    rewrite Hruns. apply first_unfit_none, Hfit.
  - intros path Hpath. apply cigar_to_coords_returns in Hpath.
    destruct Hpath as [_ ->]. rewrite Hruns.
    rewrite (last_item_cons _ _ (0, 0)), trace_last, fold_move_origin.
    reflexivity.
Qed.

Lemma cigar_to_coords_final_vertex_witness :
  valid_cigar "3=2X1I4=2D"
    [mkRun "3" "="; mkRun "2" "X"; mkRun "1" "I"; mkRun "4" "=";
     mkRun "2" "D"]
  /\ cigar_to_coords "3=2X1I4=2D"
     = Ok [(0, 0); (3, 3); (5, 5); (6, 5); (10, 9); (10, 11)]
  /\ last_item [(0, 0); (3, 3); (5, 5); (6, 5); (10, 9); (10, 11)]
     = Ok (10, 11).
Proof.
  split; [split; reflexivity|]. split; [reflexivity|].
  apply (cigar_to_coords_final_vertex "3=2X1I4=2D"
           [mkRun "3" "="; mkRun "2" "X"; mkRun "1" "I"; mkRun "4" "=";
            mkRun "2" "D"]).
  - split; reflexivity.
  - reflexivity.
Defined.

(** C4: on a valid CIGAR string the path that [cigar_to_coords] returns
    never goes back: from a vertex to the next one neither coordinate
    decreases; and the path is returned when no count has more than 4300
    digits. *)
Theorem cigar_to_coords_monotone (cigar : string) (rs : list run) :
  valid_cigar cigar rs ->
  (forallb count_fits rs = true -> exists path, cigar_to_coords cigar = Ok path)
  /\ forall path,
       cigar_to_coords cigar = Ok path ->
       forall k i1 j1 i2 j2,
         nth_error path k = Some (i1, j1) ->
         nth_error path (S k) = Some (i2, j2) ->
         i1 <= i2 /\ j1 <= j2.
Proof.
  intros H. pose proof (valid_cigar_runs _ _ H) as Hruns.
  destruct H as [Hwf _]. split.
  - intros Hfit. eexists. apply cigar_to_coords_trace.
    rewrite Hruns. apply first_unfit_none, Hfit.
  - intros path Hpath. apply cigar_to_coords_returns in Hpath.
    destruct Hpath as [_ ->]. rewrite Hruns.
    intros k i1 j1 i2 j2 H1 H2.
    exact (trace_monotone rs (0, 0) Hwf k (i1, j1) (i2, j2) H1 H2).
Qed.

Lemma cigar_to_coords_monotone_witness :
  valid_cigar "2D3=" [mkRun "2" "D"; mkRun "3" "="]
  /\ cigar_to_coords "2D3=" = Ok [(0, 0); (0, 2); (3, 5)]
  /\ forall k i1 j1 i2 j2,
       nth_error [(0, 0); (0, 2); (3, 5)] k = Some (i1, j1) ->
       nth_error [(0, 0); (0, 2); (3, 5)] (S k) = Some (i2, j2) ->
       i1 <= i2 /\ j1 <= j2.
Proof.
  split; [split; reflexivity|]. split; [reflexivity|].
  apply (cigar_to_coords_monotone "2D3=" [mkRun "2" "D"; mkRun "3" "="]).
  - split; reflexivity.
  - reflexivity.
Defined.

(** C5, amended: on a valid CIGAR string whose counts have at most 4300
    digits each [cigar_to_match_coords] returns as many segments as the
    string has [=] runs.  The segment of a [=] run comes after the segments
    of the [=] runs before it, and goes from the cursor before the run to
    the cursor after it, so that its extent is the count of the run in both
    coordinates; [X], [I] and [D] runs give none. *)
Theorem match_segments_of_runs (cigar : string)
  (rs : list run) :
  valid_cigar cigar rs -> forallb count_fits rs = true ->
  exists segs,
    cigar_to_match_coords cigar = Ok segs
    /\ List.length segs = List.length (filter is_match rs)
    /\ map extent segs = map (fun r => (count r, count r)) (filter is_match rs)
    /\ forall k r, nth_error rs k = Some r -> is_match r = true ->
         nth_error segs (List.length (filter is_match (firstn k rs)))
         = Some (cursor (firstn k rs), cursor (firstn (S k) rs)).
Proof.
  intros H Hfit. pose proof (valid_cigar_runs _ _ H) as Hruns.
  exists (segments rs (0, 0)).
  rewrite cigar_to_match_coords_segments
    by (rewrite Hruns; apply first_unfit_none, Hfit).
  rewrite Hruns. split; [reflexivity|].
  split; [apply segments_length|].
  split; [apply segments_extent|].
  intros k r Hr Hm. rewrite <- !fold_move_origin.
  apply (segments_nth rs (0, 0) k r Hr Hm).
Qed.

Lemma match_segments_of_runs_witness :
  valid_cigar "3=2X1I4="
    [mkRun "3" "="; mkRun "2" "X"; mkRun "1" "I"; mkRun "4" "="]
  /\ forallb count_fits
       [mkRun "3" "="; mkRun "2" "X"; mkRun "1" "I"; mkRun "4" "="] = true
  /\ exists segs,
       cigar_to_match_coords "3=2X1I4=" = Ok segs
       /\ List.length segs = 2%nat
       /\ map extent segs = [(3, 3); (4, 4)]
       /\ forall k r,
            nth_error
              [mkRun "3" "="; mkRun "2" "X"; mkRun "1" "I"; mkRun "4" "="] k
            = Some r ->
            is_match r = true ->
            nth_error segs
              (List.length
                 (filter is_match
                    (firstn k
                       [mkRun "3" "="; mkRun "2" "X"; mkRun "1" "I";
                        mkRun "4" "="])))
            = Some
                (cursor
                   (firstn k
                      [mkRun "3" "="; mkRun "2" "X"; mkRun "1" "I";
                       mkRun "4" "="]),
                 cursor
                   (firstn (S k)
                      [mkRun "3" "="; mkRun "2" "X"; mkRun "1" "I";
                       mkRun "4" "="])).
Proof.
  split; [split; reflexivity|]. split; [reflexivity|].
  apply (match_segments_of_runs "3=2X1I4="
           [mkRun "3" "="; mkRun "2" "X"; mkRun "1" "I"; mkRun "4" "="]).
  - split; reflexivity.
  - reflexivity.
Defined.

(** Without the bound on the digits the statement fails: on the valid
    string made of 4301 ones and [=], which has one [=] run, [int] raises
    and [cigar_to_match_coords] returns no segment list at all. *)
Lemma long_count_has_no_segments :
  valid_cigar long_count_cigar [mkRun (ones 4301) "="]
  /\ cigar_to_match_coords long_count_cigar
     = Raise (ValueError
                "Exceeds the limit (4300 digits) for integer string conversion: value has 4301 digits; use sys.set_int_max_str_digits() to increase the limit")
  /\ ~ (exists segs,
          cigar_to_match_coords long_count_cigar = Ok segs
          /\ List.length segs = 1%nat).
Proof.
  assert (H : cigar_to_match_coords long_count_cigar
              = Raise (ValueError
                         "Exceeds the limit (4300 digits) for integer string conversion: value has 4301 digits; use sys.set_int_max_str_digits() to increase the limit"))
    by (vm_compute; reflexivity).
  split; [split; vm_compute; reflexivity|]. split; [exact H|].
  intros (segs & Hsegs & _). rewrite H in Hsegs. discriminate.
Qed.

(** C6: the anchors of an empty path are [(0, 0)] alone; the anchors of a
    path with one more vertex [v] at its end are the anchors of the path,
    which begin with [(0, 0)], followed by [v] exactly when the read
    coordinate of [v] exceeds that of the last anchor plus [W - O] or its
    reference coordinate exceeds that of the last anchor plus [W - O].  For
    the path [(0,0), (10,10), (20,20)] with [W = 16] and [O = 4] the anchors
    are [(0,0), (20,20)]. *)
Theorem window_starts_rule :
  (forall W O, compute_window_starts [] W O = Ok [(0, 0)])
  /\ (forall path v W O,
        exists ws anchor,
          compute_window_starts path W O = Ok ws
          /\ nth_error ws 0 = Some (0, 0)
          /\ last_item ws = Ok anchor
          /\ compute_window_starts (path ++ [v]) W O
             = Ok (if exceeds anchor v W O then ws ++ [v] else ws)%list)
  /\ compute_window_starts [(0, 0); (10, 10); (20, 20)] 16 4
     = Ok [(0, 0); (20, 20)].
Proof.
  split; [reflexivity|]. split; [|reflexivity].
  intros path v W O.
  pose proof (compute_window_starts_anchors path W O) as Hws.
  pose proof (last_item_cons (0, 0) (anchors_after (0, 0) path W O) (0, 0))
    as Hlast.
  assert (Hhd : nth_error ((0, 0) :: anchors_after (0, 0) path W O) 0
                = Some (0, 0)) by reflexivity.
  remember ((0, 0) :: anchors_after (0, 0) path W O) as ws eqn:Ews.
  clear Ews. exists ws, (last ws (0, 0)).
  repeat split; [exact Hws | exact Hhd | exact Hlast |].
  unfold compute_window_starts in *.
  rewrite window_starts_loop_snoc, Hws. cbn [bind].
  change (Z * Z)%type with coord in *. rewrite Hlast. reflexivity.
Qed.

(** C7: for the path of a CIGAR string and [W > O >= 0] the anchors begin
    with [(0, 0)] and advance strictly: from an anchor to the next one the
    read coordinate or the reference coordinate grows, so that the two
    anchors differ. *)
Theorem window_starts_advance (cigar : string) (path : list coord)
  (W O : Z) :
  cigar_to_coords cigar = Ok path -> O < W -> 0 <= O ->
  exists ws,
    compute_window_starts path W O = Ok ws
    /\ nth_error ws 0 = Some (0, 0)
    /\ forall k a b, nth_error ws k = Some a -> nth_error ws (S k) = Some b ->
         a <> b /\ (fst a < fst b \/ snd a < snd b).
Proof.
  intros _ HWO _.
  exists ((0, 0) :: anchors_after (0, 0) path W O).
  split; [apply compute_window_starts_anchors|]. split; [reflexivity|].
  intros k a b Ha Hb.
  assert (Hlt : fst a < fst b \/ snd a < snd b).
  { refine (anchors_after_advance (0, 0) path W O _ k a b Ha Hb). lia. }
  split; [|exact Hlt]. intros ->. lia.
Qed.

Lemma window_starts_advance_witness :
  cigar_to_coords "10=10=" = Ok [(0, 0); (10, 10); (20, 20)]
  /\ 4 < 16 /\ 0 <= 4
  /\ exists ws,
       compute_window_starts [(0, 0); (10, 10); (20, 20)] 16 4 = Ok ws
       /\ nth_error ws 0 = Some (0, 0)
       /\ forall k a b,
            nth_error ws k = Some a -> nth_error ws (S k) = Some b ->
            a <> b /\ (fst a < fst b \/ snd a < snd b).
Proof.
  split; [reflexivity|]. split; [reflexivity|]. split; [discriminate|].
  apply (window_starts_advance "10=10=" [(0, 0); (10, 10); (20, 20)] 16 4).
  - reflexivity.
  - reflexivity.
  - discriminate.
Defined.

(** C8: on a CIGAR string that [cigar_to_coords] decodes,
    [plot_genasm_windows] draws one polygon per anchor, in the order of the
    anchors; the polygon of an anchor is the rectangle between the anchor
    and the corner
    [(min (anchor.read + W) (len read), min (anchor.reference + W) (len reference))],
    which lies within the two sequences.  The colours, three of them at the
    only call of the function, must not be an empty list. *)
Theorem window_rectangles {C : Type} (read reference cigar : string)
  (colors : list C) (W O : Z) (path : list coord) :
  colors <> [] -> cigar_to_coords cigar = Ok path ->
  exists anchors calls,
    compute_window_starts path W O = Ok anchors
    /\ plot_genasm_windows read reference cigar colors W O = Ok calls
    /\ List.length calls = List.length anchors
    /\ forall k a, nth_error anchors k = Some a ->
         let e := (Z.min (fst a + W) (Z.of_nat (String.length read)),
                   Z.min (snd a + W) (Z.of_nat (String.length reference))) in
         fst e <= Z.of_nat (String.length read)
         /\ snd e <= Z.of_nat (String.length reference)
         /\ exists call,
              nth_error calls k = Some call
              /\ plot_xs call = [fst a; fst a; fst e; fst e; fst a]
              /\ plot_ys call = [snd a; snd e; snd e; snd a; snd a]
              /\ nth_error colors (k mod List.length colors)
                 = Some (plot_color call).
Proof.
  intros Hne Hpath.
  destruct (plot_windows_loop_calls
              ((0, 0) :: anchors_after (0, 0) path W O)
              0 W read reference colors Hne)
    as (calls & Hcalls & Hlen & Hk).
  exists ((0, 0) :: anchors_after (0, 0) path W O), calls.
  split; [apply compute_window_starts_anchors|].
  split.
  { unfold plot_genasm_windows. rewrite Hpath. cbn [bind].
    rewrite compute_window_starts_anchors. cbn [bind]. exact Hcalls. }
  split; [exact Hlen|].
  intros k a Ha e.
  split; [apply Z.le_min_r|]. split; [apply Z.le_min_r|].
  destruct (Hk k a Ha) as (call & H1 & H2 & H3 & H4).
  exists call. repeat split; assumption.
Qed.

Lemma window_rectangles_witness :
  [1%nat; 2%nat; 3%nat] <> []
  /\ cigar_to_coords "10=10=" = Ok [(0, 0); (10, 10); (20, 20)]
  /\ exists anchors calls,
       compute_window_starts [(0, 0); (10, 10); (20, 20)] 16 4 = Ok anchors
       /\ plot_genasm_windows "ACGTACGTACGTACGTACGT" "ACGTACGTACGTACGTACGTAC"
            "10=10=" [1%nat; 2%nat; 3%nat] 16 4 = Ok calls
       /\ List.length calls = List.length anchors
       /\ forall k a, nth_error anchors k = Some a ->
            let e :=
              (Z.min (fst a + 16)
                 (Z.of_nat (String.length "ACGTACGTACGTACGTACGT")),
               Z.min (snd a + 16)
                 (Z.of_nat (String.length "ACGTACGTACGTACGTACGTAC"))) in
            fst e <= Z.of_nat (String.length "ACGTACGTACGTACGTACGT")
            /\ snd e <= Z.of_nat (String.length "ACGTACGTACGTACGTACGTAC")
            /\ exists call,
                 nth_error calls k = Some call
                 /\ plot_xs call = [fst a; fst a; fst e; fst e; fst a]
                 /\ plot_ys call = [snd a; snd e; snd e; snd a; snd a]
                 /\ nth_error [1%nat; 2%nat; 3%nat]
                      (k mod List.length [1%nat; 2%nat; 3%nat])
                    = Some (plot_color call).
Proof.
  split; [discriminate|]. split; [reflexivity|].
  apply (window_rectangles "ACGTACGTACGTACGTACGT" "ACGTACGTACGTACGTACGTAC"
           "10=10=" [1%nat; 2%nat; 3%nat] 16 4
           [(0, 0); (10, 10); (20, 20)]).
  - discriminate.
  - reflexivity.
Defined.

Example polygons_case :
  plot_genasm_windows "ACGTACGTACGTACGTACGT" "ACGTACGTACGTACGTACGTAC"
    "10=10=" [1%nat; 2%nat; 3%nat] 16 4
  = Ok [ mkPlot [0; 0; 16; 16; 0] [0; 16; 16; 0; 0] 1%nat;
         mkPlot [20; 20; 20; 20; 20] [20; 22; 22; 20; 20] 2%nat ].
Proof. reflexivity. Qed.

(** C9: whatever the path and whatever [W] and [O], also with [W <= O], the
    computation of the anchors returns: it raises nothing, its result begins
    with [(0, 0)] and has at most one anchor per vertex after it. *)
Theorem window_starts_total (path : list coord) (W O : Z) :
  exists ws,
    compute_window_starts path W O = Ok ((0, 0) :: ws)
    /\ (List.length ws <= List.length path)%nat.
Proof.
  exists (anchors_after (0, 0) path W O).
  split; [apply compute_window_starts_anchors | apply anchors_after_length].
Qed.

Example window_starts_degenerate :
  compute_window_starts [(0, 0); (1, 0); (1, 1); (1, 1)] 4 9
  = Ok [(0, 0); (0, 0); (1, 0); (1, 1); (1, 1)].
Proof. reflexivity. Qed.

(** C10: when both decoders return on a string, the segments are pairs of
    consecutive vertices of the path: they are the pairs
    [(path[r], path[r+1])] for the indices [r] of the [=] runs found in the
    string, in the order of the runs. *)
Theorem match_segments_on_path (cigar : string) (path : list coord)
  (segs : list (coord * coord)) :
  cigar_to_coords cigar = Ok path ->
  cigar_to_match_coords cigar = Ok segs ->
  segs = map snd (filter (fun p => is_match (fst p))
                    (combine (finditer cigar) (combine path (tl path))))
  /\ (forall r run, nth_error (finditer cigar) r = Some run ->
        is_match run = true ->
        exists a b,
          nth_error path r = Some a /\ nth_error path (S r) = Some b
          /\ nth_error segs
               (List.length (filter is_match (firstn r (finditer cigar))))
             = Some (a, b))
  /\ (forall seg, In seg segs ->
        exists r run,
          nth_error (finditer cigar) r = Some run /\ is_match run = true
          /\ nth_error path r = Some (fst seg)
          /\ nth_error path (S r) = Some (snd seg)).
Proof.
  intros Hpath Hsegs.
  apply cigar_to_coords_returns in Hpath. destruct Hpath as [_ ->].
  apply cigar_to_match_coords_returns in Hsegs. destruct Hsegs as [_ ->].
  set (rs := finditer cigar).
  split; [apply segments_combine|]. split.
  - intros r run Hr Hm.
    assert (Hlt : (r < List.length rs)%nat)
      by (apply nth_error_Some; rewrite Hr; discriminate).
    exists (fold_left move (firstn r rs) (0, 0)),
      (fold_left move (firstn (S r) rs) (0, 0)).
    split; [apply trace_nth; lia|]. split; [apply trace_nth; lia|].
    apply (segments_nth rs (0, 0) r run Hr Hm).
  - intros seg Hin. apply (segments_in rs (0, 0) seg Hin).
Qed.

Lemma match_segments_on_path_witness :
  cigar_to_coords "3=2X1I4=" = Ok [(0,0); (3,3); (5,5); (6,5); (10,9)]
  /\ cigar_to_match_coords "3=2X1I4=" = Ok [((0,0), (3,3)); ((6,5), (10,9))]
  /\ [((0,0), (3,3)); ((6,5), (10,9))]
     = map snd (filter (fun p => is_match (fst p))
                  (combine (finditer "3=2X1I4=")
                     (combine [(0,0); (3,3); (5,5); (6,5); (10,9)]
                        (tl [(0,0); (3,3); (5,5); (6,5); (10,9)])))).
Proof.
  split; [reflexivity|]. split; [reflexivity|].
  apply (match_segments_on_path "3=2X1I4="
           [(0,0); (3,3); (5,5); (6,5); (10,9)]
           [((0,0), (3,3)); ((6,5), (10,9))]); reflexivity.
Defined.

(** * Further properties of the scan and of the decoders *)

Lemma match_at_no_digit (c : ascii) (t : string) :
  is_digit c = false -> match_at (String c t) = None.
Proof. intros H. unfold match_at. cbn [span_digits]. now rewrite H. Qed.

Lemma finditer_separator (sep s : string) :
  no_digit sep = true -> finditer (sep ++ s) = finditer s.
Proof.
  induction sep as [|c sep IH]; intros H; [reflexivity|].
  cbn [no_digit] in H. apply andb_true_iff in H. destruct H as [Hc Hsep].
  apply negb_true_iff in Hc. cbn [append].
  rewrite (finditer_skip c _ (match_at_no_digit c _ Hc)). exact (IH Hsep).
Qed.

Lemma finditer_no_digit (s : string) : no_digit s = true -> finditer s = [].
Proof.
  induction s as [|c s IH]; intros H; [reflexivity|].
  cbn [no_digit] in H. apply andb_true_iff in H. destruct H as [Hc Hs].
  apply negb_true_iff in Hc.
  rewrite (finditer_skip c _ (match_at_no_digit c _ Hc)). exact (IH Hs).
Qed.

Lemma finditer_run (r : run) (s : string) :
  well_formed_run r = true -> finditer (run_text r ++ s) = r :: finditer s.
Proof. intros H. apply finditer_match, match_at_run, H. Qed.

Lemma finditer_interleaved (parts : list (string * run)) (tail : string) :
  forallb (fun p => no_digit (fst p) && well_formed_run (snd p)) parts = true ->
  finditer (interleaved_text parts tail) = (map snd parts ++ finditer tail)%list.
Proof.
  induction parts as [|[sep r] parts IH]; intros H; [reflexivity|].
  cbn [forallb fst snd] in H. apply andb_true_iff in H.
  destruct H as [H Hparts]. apply andb_true_iff in H. destruct H as [Hsep Hr].
  cbn [interleaved_text map snd app].
  rewrite (finditer_separator _ _ Hsep), (finditer_run _ _ Hr).
  now rewrite (IH Hparts).
Qed.

Lemma interleaved_cigar_text (rs : list run) (tail : string) :
  interleaved_text (map (fun r => (EmptyString, r)) rs) tail
  = cigar_text rs ++ tail.
Proof.
  induction rs as [|r rs IH]; [reflexivity|].
  cbn [map interleaved_text cigar_text]. rewrite IH, append_assoc.
  reflexivity.
Qed.

Lemma finditer_from_occurrences (n : nat) (s : string) :
  exists parts tail,
    map snd parts = finditer_from n s /\ s = interleaved_text parts tail.
Proof.
  revert s. induction n as [|n IH]; intros s.
  - exists [], s. split; reflexivity.
  - cbn [finditer_from]. destruct (match_at s) as [[m rest]|] eqn:Hm.
    + destruct (IH rest) as (parts & tail & Hp & Hs).
      exists ((EmptyString, m) :: parts), tail.
      apply match_at_spec in Hm. destruct Hm as [_ ->].
      cbn [map snd interleaved_text append]. rewrite Hp, <- Hs.
      split; reflexivity.
    + destruct s as [|c t]; [exists [], EmptyString; split; reflexivity|].
      destruct (IH t) as ([|[sep r] parts] & tail & Hp & Hs).
      * exists [], (String c tail). cbn in Hs |- *. rewrite <- Hp, <- Hs.
        split; reflexivity.
      * exists ((String c sep, r) :: parts), tail.
        cbn [map snd interleaved_text append] in Hp, Hs |- *.
        rewrite <- Hp, <- Hs. split; reflexivity.
Qed.

(** X1: whatever the string, a run found by the scan is some digits, at
    least one, and one of the symbols [=], [X], [I], [D]; its count is not
    negative, and the chain of the decoders moves the cursor on it: the
    branch that raises [ValueError] is never taken. *)
Theorem scanned_run_is_known (cigar : string) (r : run) (ij : coord) :
  In r (finditer cigar) ->
  well_formed_run r = true /\ 0 <= count r
  /\ exists ij', advance ij (count r) (group2 r) = Ok ij'.
Proof.
  intros Hin. pose proof (finditer_well_formed cigar) as Hwf.
  rewrite forallb_forall in Hwf. specialize (Hwf r Hin).
  split; [exact Hwf|]. split; [exact (count_nonneg r Hwf)|].
  exists (move ij r). apply advance_edit_symbol, well_formed_symbol, Hwf.
Qed.

Lemma scanned_run_is_known_witness :
  In (mkRun "3" "=") (finditer "3=2Z")
  /\ well_formed_run (mkRun "3" "=") = true /\ 0 <= count (mkRun "3" "=")
  /\ exists ij',
       advance (0, 0) (count (mkRun "3" "=")) (group2 (mkRun "3" "="))
       = Ok ij'.
Proof.
  split; [left; reflexivity|].
  apply (scanned_run_is_known "3=2Z" (mkRun "3" "=") (0, 0)).
  left; reflexivity.
Defined.

(** X2: the scan invents nothing: the runs it finds stand in the string, in
    the order found and without overlap, so that the string is made of the
    texts of these runs with some text before each one and after the last. *)
Theorem scanned_runs_occur_in_order (cigar : string) :
  exists parts tail,
    map snd parts = finditer cigar
    /\ cigar = interleaved_text parts tail.
Proof. apply finditer_from_occurrences. Qed.

(** X3: text without digits between well-formed runs, before the first one
    and after the last one changes nothing: both decoders return what they
    return on the runs written one after the other. *)
Theorem separators_are_skipped (parts : list (string * run)) (tail : string) :
  forallb (fun p => no_digit (fst p) && well_formed_run (snd p)) parts = true ->
  no_digit tail = true ->
  finditer (interleaved_text parts tail) = map snd parts
  /\ cigar_to_coords (interleaved_text parts tail)
     = cigar_to_coords (cigar_text (map snd parts))
  /\ cigar_to_match_coords (interleaved_text parts tail)
     = cigar_to_match_coords (cigar_text (map snd parts)).
Proof.
  intros Hparts Htail.
  assert (Hwf : forallb well_formed_run (map snd parts) = true).
  { rewrite forallb_forall in Hparts |- *. intros r Hr.
    apply in_map_iff in Hr. destruct Hr as (p & <- & Hp).
    specialize (Hparts p Hp). apply andb_true_iff in Hparts. tauto. }
  assert (H : finditer (interleaved_text parts tail) = map snd parts).
  { rewrite (finditer_interleaved _ _ Hparts), (finditer_no_digit _ Htail).
    apply app_nil_r. }
  split; [exact H|].
  unfold cigar_to_coords, cigar_to_match_coords.
  now rewrite H, (finditer_cigar_text _ Hwf).
Qed.

Lemma separators_are_skipped_witness :
  forallb (fun p => no_digit (fst p) && well_formed_run (snd p))
    [(" ", mkRun "3" "="); (", ", mkRun "2" "X"); ("=", mkRun "4" "=")]
  = true
  /\ no_digit "ID" = true
  /\ finditer " 3=, 2X=4=ID" = [mkRun "3" "="; mkRun "2" "X"; mkRun "4" "="]
  /\ cigar_to_coords " 3=, 2X=4=ID" = cigar_to_coords "3=2X4="
  /\ cigar_to_match_coords " 3=, 2X=4=ID" = cigar_to_match_coords "3=2X4=".
Proof.
  split; [reflexivity|]. split; [reflexivity|].
  apply (separators_are_skipped
           [(" ", mkRun "3" "="); (", ", mkRun "2" "X"); ("=", mkRun "4" "=")]
           "ID"); reflexivity.
Defined.

Lemma finditer_cigar_text_app (rs : list run) (s : string) :
  forallb well_formed_run rs = true ->
  finditer (cigar_text rs ++ s) = (rs ++ finditer s)%list.
Proof.
  induction rs as [|r rs IH]; intros H; [reflexivity|].
  cbn [forallb] in H. apply andb_true_iff in H. destruct H as [Hr Hrs].
  cbn [cigar_text app]. rewrite append_assoc, (finditer_run _ _ Hr).
  now rewrite (IH Hrs).
Qed.

Lemma trace_app (rs1 rs2 : list run) (ij : coord) :
  trace (rs1 ++ rs2) ij
  = (trace rs1 ij ++ trace rs2 (fold_left move rs1 ij))%list.
Proof.
  revert ij. induction rs1 as [|r rs1 IH]; intros ij; [reflexivity|].
  cbn [app trace fold_left]. now rewrite IH.
Qed.

Lemma translate_origin (d : coord) : translate d (0, 0) = d.
Proof. destruct d as [i j]. unfold translate. cbn. f_equal; lia. Qed.

Lemma move_translate (d p : coord) (r : run) :
  move (translate d p) r = translate d (move p r).
Proof.
  rewrite !move_spec. unfold translate. cbn [fst snd]. f_equal; lia.
Qed.

Lemma trace_translate (rs : list run) (d p : coord) :
  trace rs (translate d p) = map (translate d) (trace rs p).
Proof.
  revert p. induction rs as [|r rs IH]; intros p; [reflexivity|].
  cbn [trace map]. rewrite move_translate, IH. reflexivity.
Qed.

Lemma segments_app (rs1 rs2 : list run) (ij : coord) :
  segments (rs1 ++ rs2) ij
  = (segments rs1 ij ++ segments rs2 (fold_left move rs1 ij))%list.
Proof.
  revert ij. induction rs1 as [|r rs1 IH]; intros ij; [reflexivity|].
  cbn [app segments fold_left]. rewrite IH.
  destruct (is_match r); reflexivity.
Qed.

Lemma segments_translate (rs : list run) (d p : coord) :
  segments rs (translate d p)
  = map (fun seg => (translate d (fst seg), translate d (snd seg)))
      (segments rs p).
Proof.
  revert p. induction rs as [|r rs IH]; intros p; [reflexivity|].
  cbn [segments]. rewrite move_translate, IH.
  destruct (is_match r); reflexivity.
Qed.

(** X4: decoding composes.  When a valid CIGAR string is followed by any
    other string, the path of the whole is the path of the first, followed
    by the path of the second, less its first vertex, moved to the last
    vertex of the first; the segments of the whole are the segments of the
    first followed by the segments of the second, moved likewise. *)
Theorem decoders_of_append (c1 c2 : string) (rs1 : list run)
  (path1 path2 : list coord) (segs1 segs2 : list (coord * coord))
  (final1 : coord) :
  valid_cigar c1 rs1 ->
  cigar_to_coords c1 = Ok path1 -> last_item path1 = Ok final1 ->
  cigar_to_coords c2 = Ok path2 ->
  cigar_to_match_coords c1 = Ok segs1 ->
  cigar_to_match_coords c2 = Ok segs2 ->
  cigar_to_coords (c1 ++ c2)
  = Ok (path1 ++ map (translate final1) (tl path2))%list
  /\ cigar_to_match_coords (c1 ++ c2)
     = Ok (segs1
           ++ map (fun seg => (translate final1 (fst seg),
                               translate final1 (snd seg))) segs2)%list.
Proof.
  intros Hvalid H1 Hlast H2 H3 H4.
  pose proof (valid_cigar_runs _ _ Hvalid) as Hruns.
  destruct Hvalid as [Hwf ->].
  apply cigar_to_coords_returns in H1, H2.
  apply cigar_to_match_coords_returns in H3, H4.
  destruct H1 as [Hfit1 ->]. destruct H2 as [Hfit2 ->].
  destruct H3 as [_ ->]. destruct H4 as [_ ->].
  rewrite Hruns in *.
  assert (Hfit : first_unfit (finditer (cigar_text rs1 ++ c2)) = None).
  { rewrite (finditer_cigar_text_app _ _ Hwf).
    apply first_unfit_none. rewrite forallb_app.
    apply first_unfit_none in Hfit1, Hfit2. now rewrite Hfit1, Hfit2. }
  rewrite (cigar_to_coords_trace _ Hfit),
    (cigar_to_match_coords_segments _ Hfit).
  rewrite (finditer_cigar_text_app _ _ Hwf).
  rewrite (last_item_cons _ _ (0, 0)), trace_last in Hlast.
  injection Hlast as <-.
  cbn [tl]. rewrite trace_app, segments_app.
  rewrite <- (translate_origin (fold_left move rs1 (0, 0))) at 1 3.
  rewrite trace_translate, segments_translate. split; reflexivity.
Qed.

Lemma decoders_of_append_witness :
  valid_cigar "3=1I" [mkRun "3" "="; mkRun "1" "I"]
  /\ cigar_to_coords "3=1I" = Ok [(0, 0); (3, 3); (4, 3)]
  /\ last_item [(0, 0); (3, 3); (4, 3)] = Ok (4, 3)
  /\ cigar_to_coords "2D, 5=" = Ok [(0, 0); (0, 2); (5, 7)]
  /\ cigar_to_match_coords "3=1I" = Ok [((0, 0), (3, 3))]
  /\ cigar_to_match_coords "2D, 5=" = Ok [((0, 2), (5, 7))]
  /\ cigar_to_coords ("3=1I" ++ "2D, 5=")
     = Ok ([(0, 0); (3, 3); (4, 3)]
           ++ map (translate (4, 3)) (tl [(0, 0); (0, 2); (5, 7)]))%list
  /\ cigar_to_match_coords ("3=1I" ++ "2D, 5=")
     = Ok ([((0, 0), (3, 3))]
           ++ map (fun seg => (translate (4, 3) (fst seg),
                               translate (4, 3) (snd seg)))
               [((0, 2), (5, 7))])%list.
Proof.
  split; [split; reflexivity|]. do 5 (split; [reflexivity|]).
  apply (decoders_of_append "3=1I" "2D, 5=" [mkRun "3" "="; mkRun "1" "I"]
           [(0, 0); (3, 3); (4, 3)] [(0, 0); (0, 2); (5, 7)]
           [((0, 0), (3, 3))] [((0, 2), (5, 7))] (4, 3));
    try reflexivity.
  split; reflexivity.
Defined.

(** ** Order along the path *)

Lemma le2_refl (a : coord) : le2 a a.
Proof. unfold le2. lia. Qed.

Lemma le2_trans (a b c : coord) : le2 a b -> le2 b c -> le2 a c.
Proof. unfold le2. lia. Qed.

Lemma trace_sorted (rs : list run) (ij : coord) :
  forallb well_formed_run rs = true ->
  Forall (le2 ij) (trace rs ij) /\ StronglySorted le2 (trace rs ij).
Proof.
  revert ij. induction rs as [|r rs IH]; intros ij H.
  - split; constructor.
  - cbn [forallb] in H. apply andb_true_iff in H. destruct H as [Hr Hrs].
    destruct (IH (move ij r) Hrs) as [Hall Hsorted].
    assert (Hstep : le2 ij (move ij r))
      by (apply move_monotone, count_nonneg, Hr).
    cbn [trace]. split.
    + constructor; [exact Hstep|].
      eapply Forall_impl; [|exact Hall]. intros v Hv.
      exact (le2_trans _ _ _ Hstep Hv).
    + constructor; assumption.
Qed.

Lemma last_item_In {A : Type} (l : list A) (z : A) :
  last_item l = Ok z -> In z l.
Proof.
  induction l as [|x l IH]; [discriminate|].
  destruct l as [|y l].
  - cbn. intros H. injection H as ->. now left.
  - intros H. right. apply IH. exact H.
Qed.

Lemma sorted_below_last {A : Type} (R : A -> A -> Prop) (l : list A) (z : A) :
  (forall x, R x x) -> StronglySorted R l -> last_item l = Ok z ->
  Forall (fun v => R v z) l.
Proof.
  intros Hrefl Hs. induction Hs as [|a l Hs IH Ha]; intros Hz;
    [discriminate|].
  destruct l as [|y l].
  - cbn in Hz. injection Hz as <-. constructor; [apply Hrefl | constructor].
  - change (last_item (a :: y :: l)) with (last_item (y :: l)) in Hz.
    constructor; [|exact (IH Hz)].
    rewrite Forall_forall in Ha. apply Ha, last_item_In, Hz.
Qed.

Lemma sorted_consecutive {A : Type} (R : A -> A -> Prop) (l : list A) :
  StronglySorted R l -> consecutive R l.
Proof.
  intros Hs. induction Hs as [|a l Hs IH Ha]; intros k x y Hx Hy.
  - destruct k; discriminate.
  - destruct k as [|k].
    + cbn in Hx. injection Hx as <-.
      rewrite Forall_forall in Ha. exact (Ha y (nth_error_In l 0 Hy)).
    + exact (IH k x y Hx Hy).
Qed.

(** X5: whatever the string, every vertex of the path lies between [(0, 0)]
    and the last vertex: no coordinate is negative and none is beyond the
    total that the runs found consume. *)
Theorem path_within_bounds (cigar : string) (path : list coord)
  (final v : coord) :
  cigar_to_coords cigar = Ok path -> last_item path = Ok final ->
  In v path ->
  0 <= fst v <= fst final /\ 0 <= snd v <= snd final.
Proof.
  intros H Hlast Hv. apply cigar_to_coords_returns in H.
  destruct H as [_ ->].
  destruct (trace_sorted (finditer cigar) (0, 0) (finditer_well_formed cigar))
    as [Hall Hsorted].
  assert (Hs : StronglySorted le2 ((0, 0) :: trace (finditer cigar) (0, 0)))
    by (constructor; assumption).
  pose proof (sorted_below_last le2 _ final le2_refl Hs Hlast) as Hup.
  rewrite Forall_forall in Hup. specialize (Hup v Hv).
  assert (Hlow : le2 (0, 0) v).
  { destruct Hv as [<-|Hv]; [apply le2_refl|].
    rewrite Forall_forall in Hall. exact (Hall v Hv). }
  unfold le2 in *. cbn [fst snd] in *. lia.
Qed.

Lemma path_within_bounds_witness :
  cigar_to_coords "3=2X1I4=" = Ok [(0,0); (3,3); (5,5); (6,5); (10,9)]
  /\ last_item [(0,0); (3,3); (5,5); (6,5); (10,9)] = Ok (10, 9)
  /\ In (6, 5) [(0,0); (3,3); (5,5); (6,5); (10,9)]
  /\ 0 <= fst (6, 5) <= fst (10, 9) /\ 0 <= snd (6, 5) <= snd (10, 9).
Proof.
  split; [reflexivity|]. split; [reflexivity|].
  split; [right; right; right; left; reflexivity|].
  apply (path_within_bounds "3=2X1I4="
           [(0,0); (3,3); (5,5); (6,5); (10,9)] (10, 9) (6, 5));
    [reflexivity | reflexivity | right; right; right; left; reflexivity].
Defined.

Lemma segments_sorted (rs : list run) (ij : coord) :
  forallb well_formed_run rs = true ->
  Forall (fun seg => le2 ij (fst seg) /\ le2 (fst seg) (snd seg)
                     /\ fst (extent seg) = snd (extent seg))
    (segments rs ij)
  /\ StronglySorted (fun s1 s2 => le2 (snd s1) (fst s2)) (segments rs ij).
Proof.
  revert ij. induction rs as [|r rs IH]; intros ij H.
  - split; constructor.
  - cbn [forallb] in H. apply andb_true_iff in H. destruct H as [Hr Hrs].
    destruct (IH (move ij r) Hrs) as [Hall Hsorted].
    assert (Hstep : le2 ij (move ij r))
      by (apply move_monotone, count_nonneg, Hr).
    assert (Hall' : Forall (fun seg => le2 ij (fst seg)
                              /\ le2 (fst seg) (snd seg)
                              /\ fst (extent seg) = snd (extent seg))
                      (segments rs (move ij r))).
    { eapply Forall_impl; [|exact Hall]. intros seg (H1 & H2 & H3).
      split; [exact (le2_trans _ _ _ Hstep H1) | tauto]. }
    cbn [segments]. destruct (is_match r) eqn:Hm; [|split; assumption].
    split.
    + constructor; [|exact Hall'].
      cbn [fst snd]. split; [apply le2_refl|]. split; [exact Hstep|].
      unfold extent. rewrite (move_match ij r Hm). cbn [fst snd]. lia.
    + constructor; [exact Hsorted|].
      eapply Forall_impl; [|exact Hall]. cbn [snd]. tauto.
Qed.

(** X6: whatever the string, the segments of the matches follow one another
    along the path: a segment starts at or after [(0, 0)], ends at or after
    its start, advances by the same amount in both coordinates, and the next
    segment starts at or after its end. *)
Theorem match_segments_in_sequence (cigar : string)
  (segs : list (coord * coord)) :
  cigar_to_match_coords cigar = Ok segs ->
  (forall seg, In seg segs ->
     le2 (0, 0) (fst seg) /\ le2 (fst seg) (snd seg)
     /\ fst (snd seg) - fst (fst seg) = snd (snd seg) - snd (fst seg))
  /\ (forall k s1 s2, nth_error segs k = Some s1 ->
        nth_error segs (S k) = Some s2 -> le2 (snd s1) (fst s2)).
Proof.
  intros H. apply cigar_to_match_coords_returns in H. destruct H as [_ ->].
  destruct (segments_sorted (finditer cigar) (0, 0)
              (finditer_well_formed cigar)) as [Hall Hsorted].
  split.
  - rewrite Forall_forall in Hall. exact Hall.
  - exact (sorted_consecutive _ _ Hsorted).
Qed.

Lemma match_segments_in_sequence_witness :
  cigar_to_match_coords "3=2X1I4=" = Ok [((0,0), (3,3)); ((6,5), (10,9))]
  /\ (forall seg, In seg [((0,0), (3,3)); ((6,5), (10,9))] ->
        le2 (0, 0) (fst seg) /\ le2 (fst seg) (snd seg)
        /\ fst (snd seg) - fst (fst seg) = snd (snd seg) - snd (fst seg))
  /\ (forall k s1 s2,
        nth_error [((0,0), (3,3)); ((6,5), (10,9))] k = Some s1 ->
        nth_error [((0,0), (3,3)); ((6,5), (10,9))] (S k) = Some s2 ->
        le2 (snd s1) (fst s2)).
Proof.
  split; [reflexivity|].
  apply (match_segments_in_sequence "3=2X1I4="
           [((0,0), (3,3)); ((6,5), (10,9))]).
  reflexivity.
Defined.

(** * Further properties of the windows *)

Lemma Ok_injective {A : Type} (a b : A) : Ok a = Ok b -> a = b.
Proof. intros H. injection H as ->. reflexivity. Qed.

Lemma anchors_after_selection (a : coord) (path : list coord) (W O : Z) :
  exists keep : list bool,
    List.length keep = List.length path
    /\ anchors_after a path W O = map snd (filter fst (combine keep path)).
Proof.
  revert a. induction path as [|v path IH]; intros a.
  - exists []. split; reflexivity.
  - cbn [anchors_after].
    destruct ((fst v >? fst a + W - O) || (snd v >? snd a + W - O)).
    + destruct (IH v) as (keep & Hlen & Hk). exists (true :: keep).
      cbn. rewrite Hlen, Hk. split; reflexivity.
    + destruct (IH a) as (keep & Hlen & Hk). exists (false :: keep).
      cbn. rewrite Hlen, Hk. split; reflexivity.
Qed.

(** X7: whatever the path, [W] and [O], the anchors after the first one are
    vertices of the path, taken in the order of the path, each vertex at
    most once: the windows start nowhere but at [(0, 0)] and on the path. *)
Theorem anchors_are_path_vertices (path : list coord) (W O : Z) :
  exists keep : list bool,
    List.length keep = List.length path
    /\ compute_window_starts path W O
       = Ok ((0, 0) :: map snd (filter fst (combine keep path))).
Proof.
  destruct (anchors_after_selection (0, 0) path W O) as (keep & Hlen & Hk).
  exists keep. split; [exact Hlen|].
  rewrite compute_window_starts_anchors, Hk. reflexivity.
Qed.

Lemma anchors_after_cover (a : coord) (path : list coord) (W O : Z) :
  O <= W -> Forall (le2 a) path -> StronglySorted le2 path ->
  forall v, In v path ->
    exists b, In b (a :: anchors_after a path W O)
      /\ le2 b v
      /\ fst v <= fst b + (W - O) /\ snd v <= snd b + (W - O).
Proof.
  intros HWO. revert a.
  induction path as [|v0 path IH]; intros a Ha Hs v Hv; [destruct Hv|].
  apply Forall_cons_iff in Ha. destruct Ha as [Hav0 Ha].
  apply StronglySorted_inv in Hs. destruct Hs as [Hs Hv0].
  cbn [anchors_after].
  destruct ((fst v0 >? fst a + W - O) || (snd v0 >? snd a + W - O)) eqn:E.
  - destruct Hv as [<-|Hv].
    + exists v0. split; [right; left; reflexivity|].
      split; [apply le2_refl | lia].
    + destruct (IH v0 Hv0 Hs v Hv) as (b & Hb & Hle).
      exists b. split; [right; exact Hb | exact Hle].
  - destruct Hv as [<-|Hv].
    + exists a. split; [left; reflexivity|]. split; [exact Hav0|].
      apply orb_false_iff in E. rewrite !Z.gtb_ltb, !Z.ltb_ge in E. lia.
    + destruct (IH a Ha Hs v Hv) as (b & Hb & Hle).
      exists b. split; [|exact Hle].
      destruct Hb as [<-|Hb]; [left; reflexivity | right; exact Hb].
Qed.

(** X8: for the path of a CIGAR string and [W >= O], every vertex of the
    path is covered: some anchor lies at or before the vertex, and the
    vertex is at most [W - O] beyond that anchor in each coordinate. *)
Theorem path_vertices_are_covered (cigar : string) (path ws : list coord)
  (W O : Z) (v : coord) :
  cigar_to_coords cigar = Ok path -> O <= W ->
  compute_window_starts path W O = Ok ws -> In v path ->
  exists a, In a ws /\ le2 a v
    /\ fst v <= fst a + (W - O) /\ snd v <= snd a + (W - O).
Proof.
  rewrite compute_window_starts_anchors.
  intros Hpath HWO Hws Hv. apply cigar_to_coords_returns in Hpath.
  destruct Hpath as [_ ->].
  apply Ok_injective in Hws. subst ws.
  destruct (trace_sorted (finditer cigar) (0, 0) (finditer_well_formed cigar))
    as [Hall Hsorted].
  apply (anchors_after_cover (0, 0) _ W O HWO); [| |exact Hv].
  - constructor; [apply le2_refl | exact Hall].
  - constructor; assumption.
Qed.

Lemma path_vertices_are_covered_witness :
  cigar_to_coords "10=10=" = Ok [(0, 0); (10, 10); (20, 20)]
  /\ 4 <= 16
  /\ compute_window_starts [(0, 0); (10, 10); (20, 20)] 16 4
     = Ok [(0, 0); (20, 20)]
  /\ In (10, 10) [(0, 0); (10, 10); (20, 20)]
  /\ exists a, In a [(0, 0); (20, 20)] /\ le2 a (10, 10)
       /\ fst (10, 10) <= fst a + (16 - 4)
       /\ snd (10, 10) <= snd a + (16 - 4).
Proof.
  split; [reflexivity|]. split; [discriminate|]. split; [reflexivity|].
  split; [right; left; reflexivity|].
  apply (path_vertices_are_covered "10=10=" [(0, 0); (10, 10); (20, 20)]
           [(0, 0); (20, 20)] 16 4 (10, 10));
    [reflexivity | discriminate | reflexivity | right; left; reflexivity].
Defined.

Lemma anchors_after_all (a : coord) (path : list coord) (W O : Z) :
  W < O -> Forall (le2 a) path -> StronglySorted le2 path ->
  anchors_after a path W O = path.
Proof.
  intros HWO. revert a.
  induction path as [|v path IH]; intros a Ha Hs; [reflexivity|].
  apply Forall_cons_iff in Ha. destruct Ha as [Hav Ha].
  apply StronglySorted_inv in Hs. destruct Hs as [Hs Hv].
  cbn [anchors_after].
  assert (E : (fst v >? fst a + W - O) || (snd v >? snd a + W - O) = true).
  { apply orb_true_iff. left. rewrite Z.gtb_ltb, Z.ltb_lt.
    destruct Hav as [Hav _]. lia. }
  rewrite E. f_equal. exact (IH v Hv Hs).
Qed.

(** X9: with an overlap larger than the window, [W < O], every vertex of the
    path of a CIGAR string becomes an anchor, its first vertex [(0, 0)]
    too: the anchors are [(0, 0)] followed by the whole path, so that the
    first window is drawn twice. *)
Theorem overlap_beyond_window (cigar : string) (path : list coord)
  (W O : Z) :
  cigar_to_coords cigar = Ok path -> W < O ->
  compute_window_starts path W O = Ok ((0, 0) :: path)
  /\ nth_error path 0 = Some (0, 0).
Proof.
  rewrite compute_window_starts_anchors.
  intros Hpath HWO. apply cigar_to_coords_returns in Hpath.
  destruct Hpath as [_ ->].
  destruct (trace_sorted (finditer cigar) (0, 0) (finditer_well_formed cigar))
    as [Hall Hsorted].
  split; [|reflexivity]. f_equal. f_equal.
  apply (anchors_after_all (0, 0) _ W O HWO).
  - constructor; [apply le2_refl | exact Hall].
  - constructor; assumption.
Qed.

Lemma overlap_beyond_window_witness :
  cigar_to_coords "2D3=" = Ok [(0, 0); (0, 2); (3, 5)]
  /\ 4 < 9
  /\ compute_window_starts [(0, 0); (0, 2); (3, 5)] 4 9
     = Ok ((0, 0) :: [(0, 0); (0, 2); (3, 5)])
  /\ nth_error [(0, 0); (0, 2); (3, 5)] 0 = Some (0, 0).
Proof.
  split; [reflexivity|]. split; [reflexivity|].
  apply (overlap_beyond_window "2D3=" [(0, 0); (0, 2); (3, 5)] 4 9);
    reflexivity.
Defined.

Lemma anchors_after_sorted (a : coord) (path : list coord) (W O : Z) :
  Forall (le2 a) path -> StronglySorted le2 path ->
  Forall (le2 a) (anchors_after a path W O)
  /\ StronglySorted le2 (anchors_after a path W O).
Proof.
  revert a. induction path as [|v path IH]; intros a Ha Hs.
  - split; constructor.
  - apply Forall_cons_iff in Ha. destruct Ha as [Hav Ha].
    apply StronglySorted_inv in Hs. destruct Hs as [Hs Hv].
    cbn [anchors_after].
    destruct ((fst v >? fst a + W - O) || (snd v >? snd a + W - O)).
    + destruct (IH v Hv Hs) as [H1 H2]. split.
      * constructor; [exact Hav|]. eapply Forall_impl; [|exact H1].
        intros x Hx. exact (le2_trans _ _ _ Hav Hx).
      * constructor; assumption.
    + exact (IH a Ha Hs).
Qed.

(** X10: for the path of a CIGAR string, whatever [W] and [O], the anchors
    never go back: from an anchor to any later one neither coordinate
    decreases, and no anchor has a negative coordinate. *)
Theorem anchors_never_go_back (cigar : string) (path ws : list coord)
  (W O : Z) :
  cigar_to_coords cigar = Ok path ->
  compute_window_starts path W O = Ok ws ->
  StronglySorted le2 ws /\ Forall (le2 (0, 0)) ws.
Proof.
  rewrite compute_window_starts_anchors.
  intros Hpath Hws. apply cigar_to_coords_returns in Hpath.
  destruct Hpath as [_ ->].
  apply Ok_injective in Hws. subst ws.
  destruct (trace_sorted (finditer cigar) (0, 0) (finditer_well_formed cigar))
    as [Hall Hsorted].
  destruct (anchors_after_sorted (0, 0)
              ((0, 0) :: trace (finditer cigar) (0, 0)) W O) as [H1 H2].
  - constructor; [apply le2_refl | exact Hall].
  - constructor; assumption.
  - split; constructor; try assumption. apply le2_refl.
Qed.

Lemma anchors_never_go_back_witness :
  cigar_to_coords "10=10=" = Ok [(0, 0); (10, 10); (20, 20)]
  /\ compute_window_starts [(0, 0); (10, 10); (20, 20)] 16 4
     = Ok [(0, 0); (20, 20)]
  /\ StronglySorted le2 [(0, 0); (20, 20)]
  /\ Forall (le2 (0, 0)) [(0, 0); (20, 20)].
Proof.
  split; [reflexivity|]. split; [reflexivity|].
  apply (anchors_never_go_back "10=10=" [(0, 0); (10, 10); (20, 20)]
           [(0, 0); (20, 20)] 16 4); reflexivity.
Defined.

(** * [transpose] *)

Lemma zip_cons_nth {A : Type} (row : list A) (cols : list (list A))
  (k : nat) (col : list A) :
  nth_error (zip_cons row cols) k = Some col
  <-> exists x c, col = x :: c /\ nth_error row k = Some x
        /\ nth_error cols k = Some c.
Proof.
  revert cols k. induction row as [|x row IH]; intros cols k.
  - split; [destruct k; discriminate|].
    intros (y & c & _ & H & _). destruct k; discriminate.
  - destruct cols as [|c cols].
    + split; [destruct k; discriminate|].
      intros (y & d & _ & _ & H). destruct k; discriminate.
    + destruct k as [|k]; cbn [zip_cons nth_error].
      * split.
        -- intros H. injection H as <-. exists x, c. repeat split.
        -- intros (y & d & -> & Hy & Hd). congruence.
      * apply IH.
Qed.

Lemma zip_cons_length {A : Type} (row : list A) (cols : list (list A)) :
  List.length (zip_cons row cols)
  = Nat.min (List.length row) (List.length cols).
Proof.
  revert cols. induction row as [|x row IH]; intros [|c cols]; cbn;
    try reflexivity. now rewrite IH.
Qed.

(** X11: [transpose] of no row is the empty list; otherwise its tuple of
    index [k] exists exactly when every row has an item of index [k], and it
    holds these items, row by row: the result stops with the shortest
    row. *)
Theorem transpose_columns (A : Type) :
  transpose (@nil (list A)) = []
  /\ forall (row : list A) (rest : list (list A)) (k : nat) (col : list A),
       nth_error (transpose (row :: rest)) k = Some col
       <-> Forall2 (fun r x => nth_error r k = Some x) (row :: rest) col.
Proof.
  split; [reflexivity|].
  intros row rest. revert row.
  induction rest as [|r2 rest IH]; intros row k col.
  - cbn [transpose]. rewrite nth_error_map. split.
    + destruct (nth_error row k) as [x|] eqn:E; [|discriminate].
      cbn. intros H. injection H as <-. repeat constructor. exact E.
    + intros H. inversion H as [|r x l l' Hx Hl]; subst.
      inversion Hl; subst. now rewrite Hx.
  - change (transpose (row :: r2 :: rest))
      with (zip_cons row (transpose (r2 :: rest))).
    rewrite zip_cons_nth. split.
    + intros (x & c & -> & Hx & Hc). constructor; [exact Hx|].
      apply IH, Hc.
    + intros H. inversion H as [|r x l c Hx Hc]; subst.
      exists x, c. split; [reflexivity|]. split; [exact Hx|].
      apply IH, Hc.
Qed.

Lemma transpose_singletons {A : Type} (row : list A) :
  row <> [] -> transpose (map (fun x => [x]) row) = [row].
Proof.
  induction row as [|x row IH]; intros H; [contradiction|].
  destruct row as [|y row]; [reflexivity|].
  change (transpose (map (fun x => [x]) (x :: y :: row)))
    with (zip_cons [x] (transpose (map (fun x => [x]) (y :: row)))).
  rewrite IH by discriminate. reflexivity.
Qed.

Lemma transpose_zip_cons {A : Type} (row : list A) (cols : list (list A)) :
  List.length row = List.length cols -> row <> [] ->
  transpose (zip_cons row cols) = row :: transpose cols.
Proof.
  revert cols. induction row as [|x row IH]; intros cols Hlen Hne;
    [contradiction|].
  destruct cols as [|c cols]; [discriminate|].
  cbn [List.length] in Hlen. injection Hlen as Hlen.
  destruct row as [|y row].
  - destruct cols; [|discriminate]. reflexivity.
  - destruct cols as [|c2 cols]; [discriminate|].
    assert (IH' := IH (c2 :: cols) Hlen ltac:(discriminate)).
    change (zip_cons (x :: y :: row) (c :: c2 :: cols))
      with ((x :: c) :: zip_cons (y :: row) (c2 :: cols)).
    remember (zip_cons (y :: row) (c2 :: cols)) as Z eqn:EZ.
    destruct Z as [|z Z]; [discriminate|].
    change (transpose ((x :: c) :: z :: Z))
      with (zip_cons (x :: c) (transpose (z :: Z))).
    rewrite IH'.
    change (transpose (c :: c2 :: cols))
      with (zip_cons c (transpose (c2 :: cols))).
    reflexivity.
Qed.

Lemma transpose_length {A : Type} (table : list (list A)) (n : nat) :
  table <> [] -> Forall (fun row => List.length row = n) table ->
  List.length (transpose table) = n.
Proof.
  induction table as [|row rest IH]; intros Hne Hall; [contradiction|].
  apply Forall_cons_iff in Hall. destruct Hall as [Hrow Hrest].
  destruct rest as [|r2 rest].
  - cbn [transpose]. now rewrite length_map.
  - change (transpose (row :: r2 :: rest))
      with (zip_cons row (transpose (r2 :: rest))).
    rewrite zip_cons_length, Hrow, (IH ltac:(discriminate) Hrest).
    apply Nat.min_id.
Qed.

(** X12: [transpose] is its own inverse on a table whose rows have the same
    length, when that length is not zero. *)
Theorem transpose_involutive (A : Type) (table : list (list A)) (n : nat) :
  (0 < n)%nat -> Forall (fun row => List.length row = n) table ->
  transpose (transpose table) = table.
Proof.
  intros Hn. induction table as [|row rest IH]; intros Hall; [reflexivity|].
  apply Forall_cons_iff in Hall. destruct Hall as [Hrow Hrest].
  assert (Hne : row <> []) by (intros ->; cbn in Hrow; lia).
  destruct rest as [|r2 rest].
  - cbn [transpose]. apply transpose_singletons, Hne.
  - change (transpose (row :: r2 :: rest))
      with (zip_cons row (transpose (r2 :: rest))).
    rewrite transpose_zip_cons; [now rewrite (IH Hrest) | | exact Hne].
    rewrite Hrow. symmetry.
    apply transpose_length; [discriminate | exact Hrest].
Qed.

Lemma transpose_involutive_witness :
  (0 < 3)%nat
  /\ Forall (fun row => List.length row = 3%nat) [[1; 2; 3]; [4; 5; 6]]
  /\ transpose (transpose [[1; 2; 3]; [4; 5; 6]]) = [[1; 2; 3]; [4; 5; 6]].
Proof.
  split; [repeat constructor|]. split; [repeat constructor|].
  apply (transpose_involutive Z [[1; 2; 3]; [4; 5; 6]] 3);
    repeat constructor.
Defined.

Example transpose_empty_rows :
  transpose (transpose [@nil Z; []]) = [].
Proof. reflexivity. Qed.

(** * The line plots *)

Lemma transpose_pairs {A : Type} (points : list (A * A)) :
  points <> [] ->
  transpose (map tuple2 points) = [map fst points; map snd points].
Proof.
  induction points as [|p points IH]; intros H; [contradiction|].
  destruct points as [|q points]; [reflexivity|].
  change (transpose (map tuple2 (p :: q :: points)))
    with (zip_cons (tuple2 p) (transpose (map tuple2 (q :: points)))).
  rewrite IH by discriminate. reflexivity.
Qed.

Lemma plot_cigar_line {K : Type} (cigar : string) (plot_config : K) :
  first_unfit (finditer cigar) = None ->
  plot_cigar cigar plot_config
  = Ok (mkLine (map fst ((0, 0) :: trace (finditer cigar) (0, 0)))
               (map snd ((0, 0) :: trace (finditer cigar) (0, 0)))
               plot_config).
Proof.
  intros H. unfold plot_cigar. rewrite (cigar_to_coords_trace _ H).
  cbn [bind]. rewrite transpose_pairs by discriminate. reflexivity.
Qed.

Lemma plot_cigar_long_count {K : Type} (cigar : string) (plot_config : K)
  (r : run) :
  first_unfit (finditer cigar) = Some r ->
  plot_cigar cigar plot_config = Raise (count_error r).
Proof.
  intros H. unfold plot_cigar. now rewrite cigar_to_coords_spec, H.
Qed.

(** X13: [plot_cigar] has no failure of its own.  When [cigar_to_coords]
    returns a path, which has at least one vertex, the transposed path has
    its two tuples and the line drawn goes through the vertices of the
    path, in order, the read coordinates as [xs] and the reference
    coordinates as [ys]; when [cigar_to_coords] raises, on a count of more
    than 4300 digits, [plot_cigar] raises the same and draws nothing. *)
Theorem plot_cigar_draws_path (K : Type) (cigar : string) (plot_config : K) :
  match cigar_to_coords cigar with
  | Ok path =>
      plot_cigar cigar plot_config
      = Ok (mkLine (map fst path) (map snd path) plot_config)
  | Raise e => plot_cigar cigar plot_config = Raise e
  end.
Proof.
  rewrite cigar_to_coords_spec.
  destruct (first_unfit (finditer cigar)) as [r|] eqn:E.
  - exact (plot_cigar_long_count cigar plot_config r E).
  - exact (plot_cigar_line cigar plot_config E).
Qed.

Lemma segments_none (rs : list run) (ij : coord) :
  existsb is_match rs = false -> segments rs ij = [].
Proof.
  revert ij. induction rs as [|r rs IH]; intros ij H; [reflexivity|].
  cbn [existsb] in H. apply orb_false_iff in H. destruct H as [Hr Hrs].
  cbn [segments]. rewrite Hr. exact (IH _ Hrs).
Qed.

Lemma segments_some (rs : list run) (ij : coord) :
  existsb is_match rs = true -> segments rs ij <> [].
Proof.
  revert ij. induction rs as [|r rs IH]; intros ij H; [discriminate|].
  cbn [existsb] in H. cbn [segments].
  destruct (is_match r); [discriminate|]. exact (IH _ H).
Qed.

Lemma flattened_matches_pairs (segs : list (coord * coord)) :
  concat
    (map (fun seg : coord * coord =>
            let (match_start, match_end) := seg in
            [ tuple2 (some_coord match_start);
              tuple2 (some_coord match_end);
              tuple2 (None, None) ])
       segs)
  = map tuple2
      (flat_map (fun seg => [some_coord (fst seg); some_coord (snd seg);
                             (None, None)]) segs).
Proof.
  induction segs as [|[a b] segs IH]; [reflexivity|].
  cbn [map concat flat_map app fst snd]. now rewrite IH.
Qed.

Lemma plot_cigar_matches_long_count {K : Type} (cigar : string)
  (plot_config : K) (r : run) :
  first_unfit (finditer cigar) = Some r ->
  plot_cigar_matches cigar plot_config = Raise (count_error r).
Proof.
  intros H. unfold plot_cigar_matches.
  now rewrite cigar_to_match_coords_spec, H.
Qed.

Lemma plot_cigar_matches_none {K : Type} (cigar : string) (plot_config : K) :
  first_unfit (finditer cigar) = None ->
  existsb is_match (finditer cigar) = false ->
  plot_cigar_matches cigar plot_config
  = Raise (ValueError "not enough values to unpack (expected 2, got 0)").
Proof.
  intros Hfit H. unfold plot_cigar_matches.
  rewrite (cigar_to_match_coords_segments _ Hfit), (segments_none _ _ H).
  reflexivity.
Qed.

Lemma plot_cigar_matches_some {K : Type} (cigar : string) (plot_config : K) :
  first_unfit (finditer cigar) = None ->
  existsb is_match (finditer cigar) = true ->
  plot_cigar_matches cigar plot_config
  = Ok (mkLine
          (map fst
             (flat_map (fun seg => [some_coord (fst seg); some_coord (snd seg);
                                    (None, None)])
                (segments (finditer cigar) (0, 0))))
          (map snd
             (flat_map (fun seg => [some_coord (fst seg); some_coord (snd seg);
                                    (None, None)])
                (segments (finditer cigar) (0, 0))))
          plot_config).
Proof.
  intros Hfit H. unfold plot_cigar_matches.
  rewrite (cigar_to_match_coords_segments _ Hfit). cbn [bind].
  rewrite flattened_matches_pairs.
  pose proof (segments_some _ (0, 0) H) as Hne.
  rewrite transpose_pairs; [reflexivity|].
  destruct (segments (finditer cigar) (0, 0)) as [|[a b] l];
    [contradiction | discriminate].
Qed.

(** X14: on a string in which the scan finds no [=] run, the empty string
    and a string of mismatches among them, [plot_cigar_matches] raises
    [ValueError] in every case.  When [cigar_to_match_coords] returns, it
    returns no segment, the transposed list is empty, and the assignment of
    its two tuples to [xs] and [ys] raises; otherwise the error is that of
    [int] on a count of more than 4300 digits. *)
Theorem plot_cigar_matches_without_match (K : Type) (cigar : string)
  (plot_config : K) :
  existsb is_match (finditer cigar) = false ->
  (exists msg, plot_cigar_matches cigar plot_config = Raise (ValueError msg))
  /\ forall segs,
       cigar_to_match_coords cigar = Ok segs ->
       segs = []
       /\ plot_cigar_matches cigar plot_config
          = Raise (ValueError
                     "not enough values to unpack (expected 2, got 0)").
Proof.
  intros H. destruct (first_unfit (finditer cigar)) as [r|] eqn:E.
  - split.
    + eexists. exact (plot_cigar_matches_long_count cigar plot_config r E).
    + intros segs Hsegs. apply cigar_to_match_coords_returns in Hsegs.
      destruct Hsegs as [Hfit _]. congruence.
  - split.
    + eexists. exact (plot_cigar_matches_none cigar plot_config E H).
    + intros segs Hsegs. apply cigar_to_match_coords_returns in Hsegs.
      destruct Hsegs as [_ ->].
      split; [exact (segments_none _ _ H)|].
      exact (plot_cigar_matches_none cigar plot_config E H).
Qed.

Lemma plot_cigar_matches_without_match_witness :
  existsb is_match (finditer "5X2I") = false
  /\ (exists msg, plot_cigar_matches "5X2I" tt = Raise (ValueError msg))
  /\ forall segs,
       cigar_to_match_coords "5X2I" = Ok segs ->
       segs = []
       /\ plot_cigar_matches "5X2I" tt
          = Raise (ValueError
                     "not enough values to unpack (expected 2, got 0)").
Proof.
  split; [reflexivity|].
  apply (plot_cigar_matches_without_match unit "5X2I" tt). reflexivity.
Defined.

Lemma flattened_xs (segs : list (coord * coord)) :
  map fst
    (flat_map (fun seg => [some_coord (fst seg); some_coord (snd seg);
                           (None, None)]) segs)
  = flat_map (fun seg => [Some (fst (fst seg)); Some (fst (snd seg)); None])
      segs.
Proof.
  induction segs as [|seg segs IH]; [reflexivity|].
  cbn [flat_map map app fst snd some_coord]. do 3 f_equal. exact IH.
Qed.

Lemma flattened_ys (segs : list (coord * coord)) :
  map snd
    (flat_map (fun seg => [some_coord (fst seg); some_coord (snd seg);
                           (None, None)]) segs)
  = flat_map (fun seg => [Some (snd (fst seg)); Some (snd (snd seg)); None])
      segs.
Proof.
  induction segs as [|seg segs IH]; [reflexivity|].
  cbn [flat_map map app fst snd some_coord]. do 3 f_equal. exact IH.
Qed.

Lemma flattened_length {A B : Type} (f g h : A -> B) (l : list A) :
  List.length (flat_map (fun x => [f x; g x; h x]) l)
  = (3 * List.length l)%nat.
Proof.
  induction l as [|x l IH]; [reflexivity|].
  cbn [flat_map app List.length]. rewrite IH. lia.
Qed.

(** X15: on a string with at least one [=] run, when
    [cigar_to_match_coords] returns its segments, [plot_cigar_matches] draws
    one line made of these segments, in order: for each segment its start,
    its end and a gap [None], the read coordinates as [xs] and the reference
    coordinates as [ys], three items per segment in each. *)
Theorem plot_cigar_matches_draws_segments (K : Type) (cigar : string)
  (plot_config : K) (segs : list (coord * coord)) :
  existsb is_match (finditer cigar) = true ->
  cigar_to_match_coords cigar = Ok segs ->
  segs <> []
  /\ exists l,
       plot_cigar_matches cigar plot_config = Ok l
       /\ line_config l = plot_config
       /\ line_xs l
          = flat_map
              (fun seg => [Some (fst (fst seg)); Some (fst (snd seg)); None])
              segs
       /\ line_ys l
          = flat_map
              (fun seg => [Some (snd (fst seg)); Some (snd (snd seg)); None])
              segs
       /\ List.length (line_xs l) = (3 * List.length segs)%nat
       /\ List.length (line_ys l) = (3 * List.length segs)%nat.
Proof.
  intros H Hsegs. apply cigar_to_match_coords_returns in Hsegs.
  destruct Hsegs as [Hfit ->].
  split; [exact (segments_some _ _ H)|]. eexists.
  split; [exact (plot_cigar_matches_some cigar plot_config Hfit H)|].
  cbn [line_config line_xs line_ys]. split; [reflexivity|].
  split; [apply flattened_xs|]. split; [apply flattened_ys|].
  rewrite flattened_xs, flattened_ys, !flattened_length. split; reflexivity.
Qed.

Lemma plot_cigar_matches_draws_segments_witness :
  existsb is_match (finditer "2D3=") = true
  /\ cigar_to_match_coords "2D3=" = Ok [((0, 2), (3, 5))]
  /\ [((0, 2), (3, 5))] <> []
  /\ exists l,
       plot_cigar_matches "2D3=" tt = Ok l
       /\ line_config l = tt
       /\ line_xs l
          = flat_map
              (fun seg => [Some (fst (fst seg)); Some (fst (snd seg)); None])
              [((0, 2), (3, 5))]
       /\ line_ys l
          = flat_map
              (fun seg => [Some (snd (fst seg)); Some (snd (snd seg)); None])
              [((0, 2), (3, 5))]
       /\ List.length (line_xs l) = (3 * List.length [((0, 2), (3, 5))])%nat
       /\ List.length (line_ys l) = (3 * List.length [((0, 2), (3, 5))])%nat.
Proof.
  split; [reflexivity|]. split; [reflexivity|].
  apply (plot_cigar_matches_draws_segments unit "2D3=" tt
           [((0, 2), (3, 5))]); reflexivity.
Defined.

(** * The loop of [cigar_inspector] *)

Lemma plot_genasm_windows_returns {C : Type} (read reference cigar : string)
  (colors : list C) (W O : Z) :
  colors <> [] -> first_unfit (finditer cigar) = None ->
  exists calls, plot_genasm_windows read reference cigar colors W O = Ok calls.
Proof.
  intros Hne Hfit. unfold plot_genasm_windows.
  rewrite (cigar_to_coords_trace _ Hfit). cbn [bind].
  rewrite compute_window_starts_anchors. cbn [bind].
  destruct (plot_windows_loop_calls
              ((0, 0) :: anchors_after (0, 0)
                           ((0, 0) :: trace (finditer cigar) (0, 0)) W O)
              0 W read reference colors Hne) as (calls & Hcalls & _).
  exists calls. exact Hcalls.
Qed.

(** One turn of the loop, whatever the algorithms after it: the turn draws
    some lines and the loop goes on, or the turn stops the loop on an
    exception after some lines.  The turn goes on exactly when no count of
    the string has more than 4300 digits, the string has a [=] run and [W]
    can be written in the name that is compared. *)
Lemma cigar_inspector_cons (read reference name cigar : string) (color : rgb)
  (W O : option Z) :
  exists (drawn : list drawing) (stop : option exn),
    (stop = None
     <-> forallb count_fits (finditer cigar)
         && existsb is_match (finditer cigar) = true
         /\ exists shown, format_opt W = Ok shown)
    /\ forall rest,
         cigar_inspector read reference ((name, cigar, color) :: rest) W O
         = match stop with
           | None =>
               ((drawn ++ fst (cigar_inspector read reference rest W O))%list,
                snd (cigar_inspector read reference rest W O))
           | Some e => (drawn, Some e)
           end.
Proof.
  destruct (first_unfit (finditer cigar)) as [r|] eqn:Efit.
  { exists [], (Some (count_error r)). split.
    - split; [discriminate|]. intros [H _].
      apply andb_true_iff in H. destruct H as [H _].
      apply first_unfit_none in H. congruence.
    - intros rest. cbn [cigar_inspector].
      now rewrite (plot_cigar_long_count _ _ r Efit). }
  pose proof (proj1 (first_unfit_none _) Efit) as Hfits.
  destruct (existsb is_match (finditer cigar)) eqn:E.
  2:{ eexists [_], (Some _). split.
      - split; [discriminate|]. rewrite andb_false_r. intros [H _].
        discriminate.
      - intros rest. cbn [cigar_inspector].
        rewrite (plot_cigar_line _ _ Efit),
          (plot_cigar_matches_none _ _ Efit E). reflexivity. }
  destruct (format_opt W) as [shown|e] eqn:EW.
  2:{ eexists [_; _; _], (Some e). split.
      - split; [discriminate|]. intros [_ [shown H]]. discriminate.
      - intros rest. cbn [cigar_inspector].
        rewrite (plot_cigar_line _ _ Efit),
          (plot_cigar_matches_some _ _ Efit E), EW. reflexivity. }
  assert (Hgo : @None exn = None
                <-> forallb count_fits (finditer cigar) && true = true
                    /\ exists shown0, Ok shown = Ok shown0).
  { split; [|reflexivity]. intros _. rewrite Hfits.
    split; [reflexivity | exists shown; reflexivity]. }
  destruct ((name =? "Scrooge W=" ++ shown)%string
            && is_not_none W && is_not_none O) eqn:Ec;
    [destruct W as [w|]; [destruct O as [o|]|]|].
  - destruct (plot_genasm_windows_returns read reference cigar
                window_colors w o ltac:(discriminate) Efit)
      as [calls Hcalls].
    eexists (_ :: _ :: _ :: map Window calls), None.
    split; [exact Hgo|]. intros rest. cbn [cigar_inspector].
    rewrite (plot_cigar_line _ _ Efit),
      (plot_cigar_matches_some _ _ Efit E), EW, Ec, Hcalls.
    destruct (cigar_inspector read reference rest (Some w) (Some o)).
    cbn [fst snd app]. reflexivity.
  - rewrite andb_false_r in Ec. discriminate.
  - rewrite andb_false_r in Ec. discriminate.
  - eexists [_; _; _], None.
    split; [exact Hgo|]. intros rest. cbn [cigar_inspector].
    rewrite (plot_cigar_line _ _ Efit),
      (plot_cigar_matches_some _ _ Efit E), EW, Ec.
    destruct (cigar_inspector read reference rest W O).
    cbn [fst snd app]. reflexivity.
Qed.


Example cigar_inspector_unmatched :
  cigar_inspector "ACGT" "ACGT"
    [("Edlib", "2=", (1, 0, 0)%Q); ("ksw2", "4X", (0, 0, 0)%Q);
     ("genasm", "4=", (0, 1, 0)%Q)] None None
  = ([ Edits (mkLine [0; 2] [0; 2]
                (mkConfig "Edlib edits" (1, 0, 0)%Q "--" (1 # 2)));
       Matches (mkLine [Some 0; Some 2; None] [Some 0; Some 2; None]
                  (mkConfig "Edlib matches" (1, 0, 0)%Q "-" 1));
       Printed "Edlib";
       Edits (mkLine [0; 4] [0; 4]
                (mkConfig "ksw2 edits" (0, 0, 0)%Q "--" (1 # 2))) ],
     Some (ValueError "not enough values to unpack (expected 2, got 0)")).
Proof. reflexivity. Qed.

(** X17: the loop works through the algorithms in order.  When it runs to
    the end of a first list of algorithms, what it draws for that list
    followed by more algorithms is what it draws for the list, followed by
    what it draws for the others; when it stops on an exception in the
    first list, the algorithms after it change nothing: they are never
    drawn. *)
Theorem cigar_inspector_in_order (read reference : string)
  (before rest : list (string * string * rgb)) (W O : option Z) :
  match snd (cigar_inspector read reference before W O) with
  | None =>
      cigar_inspector read reference (before ++ rest) W O
      = ((fst (cigar_inspector read reference before W O)
          ++ fst (cigar_inspector read reference rest W O))%list,
         snd (cigar_inspector read reference rest W O))
  | Some _ =>
      cigar_inspector read reference (before ++ rest) W O
      = cigar_inspector read reference before W O
  end.
Proof.
  induction before as [|[[name cigar] color] before IH].
  - cbn [cigar_inspector snd fst app].
    now destruct (cigar_inspector read reference rest W O).
  - destruct (cigar_inspector_cons read reference name cigar color W O)
      as (drawn & stop & _ & Hstep).
    cbn [app]. rewrite (Hstep before), (Hstep (before ++ rest)%list).
    destruct stop as [e|]; [reflexivity|]. cbn [fst snd].
    destruct (snd (cigar_inspector read reference before W O)) eqn:Eb.
    + rewrite IH, Eb. reflexivity.
    + rewrite IH. cbn [fst snd]. now rewrite app_assoc.
Qed.

(** * The ticks of [on_lims_change] *)

Lemma py_range_length (a b : Z) :
  List.length (py_range a b) = Z.to_nat (b - a).
Proof. unfold py_range. now rewrite length_map, length_seq. Qed.

Lemma py_range_empty (a b : Z) : b <= a -> py_range a b = [].
Proof.
  intros H. unfold py_range.
  replace (Z.to_nat (b - a)) with 0%nat by lia. reflexivity.
Qed.

Lemma py_range_cons (a b : Z) :
  a < b -> py_range a b = a :: py_range (a + 1) b.
Proof.
  intros H. unfold py_range.
  replace (Z.to_nat (b - a)) with (S (Z.to_nat (b - (a + 1)))) by lia.
  cbn [seq map]. f_equal; [lia|].
  rewrite <- seq_shift, map_map. apply map_ext. intros k. lia.
Qed.

Lemma py_range_In (a b i : Z) : In i (py_range a b) <-> a <= i < b.
Proof.
  unfold py_range. rewrite in_map_iff. split.
  - intros (k & <- & Hk). apply in_seq in Hk. lia.
  - intros H. exists (Z.to_nat (i - a)). split; [lia|].
    apply in_seq. lia.
Qed.

Lemma py_range_clip (a b n : Z) :
  filter (fun i => (i >=? 0) && (i <? n)) (py_range a b)
  = py_range (Z.max a 0) (Z.min b n).
Proof.
  remember (Z.to_nat (b - a)) as k eqn:Hk. revert a Hk.
  induction k as [|k IH]; intros a Hk.
  - rewrite (py_range_empty a b) by lia.
    rewrite py_range_empty by lia. reflexivity.
  - rewrite (py_range_cons a b) by lia. cbn [filter].
    rewrite (IH (a + 1)) by lia.
    destruct (a >=? 0) eqn:E0; [destruct (a <? n) eqn:En|]; cbn [andb].
    + apply Z.geb_le in E0. apply Z.ltb_lt in En.
      rewrite (py_range_cons (Z.max a 0)) by lia.
      replace (Z.max a 0) with a by lia.
      replace (Z.max (a + 1) 0) with (a + 1) by lia. reflexivity.
    + apply Z.geb_le in E0. apply Z.ltb_ge in En.
      rewrite !py_range_empty by lia. reflexivity.
    + rewrite Z.geb_leb in E0. apply Z.leb_gt in E0.
      replace (Z.max (a + 1) 0) with 0 by lia.
      replace (Z.max a 0) with 0 by lia. reflexivity.
Qed.

Lemma string_get_some (s : string) (k : nat) :
  (k < String.length s)%nat -> exists c, String.get k s = Some c.
Proof.
  revert k. induction s as [|c0 s IH]; intros k H; [cbn in H; lia|].
  destruct k as [|k]; [exists c0; reflexivity|].
  cbn in H. apply (IH k). lia.
Qed.

Lemma str_getitem_in_bounds (s : string) (i : Z) :
  0 <= i < Z.of_nat (String.length s) -> exists c, str_getitem s i = Ok c.
Proof.
  intros H. unfold str_getitem.
  replace (i <? 0) with false by (symmetry; apply Z.ltb_ge; lia).
  replace (0 <=? i) with true by (symmetry; apply Z.leb_le; lia).
  replace (i <? Z.of_nat (String.length s)) with true
    by (symmetry; apply Z.ltb_lt; lia).
  cbn [andb].
  destruct (string_get_some s (Z.to_nat i) ltac:(lia)) as [c Hc].
  exists c. now rewrite Hc.
Qed.

Lemma mapM_returns {A B : Type} (f : A -> result B) (l : list A) :
  (forall x, In x l -> exists y, f x = Ok y) ->
  exists ys, mapM f l = Ok ys /\ List.length ys = List.length l.
Proof.
  induction l as [|x l IH]; intros H; [exists []; split; reflexivity|].
  destruct (H x (or_introl eq_refl)) as [y Hy].
  destruct (IH (fun z Hz => H z (or_intror Hz))) as (ys & Hys & Hlen).
  exists (y :: ys). cbn [mapM]. rewrite Hy, Hys. cbn. now rewrite Hlen.
Qed.

Lemma tick_labels_return (s : string) (a b : Z) (prefix : Z -> string) :
  exists labels,
    mapM (fun i => c <- str_getitem s i ;;
                   Ok (prefix i ++ String c EmptyString))
      (filter (fun i => (i >=? 0) && (i <? Z.of_nat (String.length s)))
         (py_range a b))
    = Ok labels
    /\ List.length labels
       = List.length
           (filter (fun i => (i >=? 0) && (i <? Z.of_nat (String.length s)))
              (py_range a b)).
Proof.
  apply mapM_returns. intros i Hi. apply filter_In in Hi.
  destruct Hi as [_ Hi]. apply andb_true_iff in Hi.
  destruct Hi as [H0 Hn]. apply Z.geb_le in H0. apply Z.ltb_lt in Hn.
  destruct (str_getitem_in_bounds s i (conj H0 Hn)) as [c Hc].
  rewrite Hc. eexists. reflexivity.
Qed.

Lemma clipped_range_bounds (a b n : Z) (q : Q) :
  In q (map (fun i => inject_Z i + (1 # 2))%Q
          (filter (fun i => (i >=? 0) && (i <? n)) (py_range a b))) ->
  exists i, q = (inject_Z i + (1 # 2))%Q /\ 0 <= i < n /\ a <= i < b.
Proof.
  intros H. apply in_map_iff in H. destruct H as (i & <- & Hi).
  apply filter_In in Hi. destruct Hi as [Hr Hi].
  apply py_range_In in Hr. apply andb_true_iff in Hi.
  destruct Hi as [H0 Hn]. apply Z.geb_le in H0. apply Z.ltb_lt in Hn.
  exists i. repeat split; lia.
Qed.

Lemma clipped_range_length (a b n : Z) :
  b - a <= 100 ->
  (List.length (filter (fun i => ((i >=? 0) && (i <? n))%Z) (py_range a b))
   <= 100)%nat.
Proof.
  intros H. etransitivity; [apply filter_length_le|].
  rewrite py_range_length. lia.
Qed.

(** X18: from integer limits on, [on_lims_change] never raises: a base is
    looked up at an index of its sequence only.  With both ranges below 100
    it sets, on each axis, as many labels as ticks, at most 100, each tick
    half a unit after an index of the sequence that lies within the limits;
    otherwise it sets the automatic ticks. *)
Theorem on_lims_change_stays_in_bounds (x_a x_b y_a y_b : Z)
  (read reference : string) :
  exists setting,
    on_lims_change x_a x_b y_a y_b read reference = Ok setting
    /\ match setting with
       | Automatic => 100 <= x_b - x_a \/ 100 <= y_b - y_a
       | PerBase t =>
           x_b - x_a < 100 /\ y_b - y_a < 100
           /\ List.length (xticklabels t) = List.length (xticks t)
           /\ List.length (yticklabels t) = List.length (yticks t)
           /\ (List.length (xticks t) <= 100)%nat
           /\ (List.length (yticks t) <= 100)%nat
           /\ (forall q, In q (xticks t) ->
                 exists i, q = (inject_Z i + (1 # 2))%Q
                   /\ 0 <= i < Z.of_nat (String.length read)
                   /\ x_a <= i <= x_b)
           /\ (forall q, In q (yticks t) ->
                 exists i, q = (inject_Z i + (1 # 2))%Q
                   /\ 0 <= i < Z.of_nat (String.length reference)
                   /\ y_a <= i <= y_b)
       end.
Proof.
  unfold on_lims_change.
  destruct (Z.max (x_b - x_a) (y_b - y_a) <? 100) eqn:E.
  - apply Z.ltb_lt in E.
    destruct (tick_labels_return read x_a (x_b + 1)
                (fun i => if i mod 10 =? 0 then str i ++ newline
                          else EmptyString)) as (xl & Hxl & Hxlen).
    destruct (tick_labels_return reference y_a (y_b + 1)
                (fun i => if i mod 10 =? 0 then str i else EmptyString))
      as (yl & Hyl & Hylen).
    rewrite Hxl. cbn [bind]. rewrite Hyl. cbn [bind].
    eexists. split; [reflexivity|].
    cbn [xticks yticks xticklabels yticklabels]. rewrite !length_map.
    split; [lia|]. split; [lia|]. split; [exact Hxlen|].
    split; [exact Hylen|].
    split; [apply clipped_range_length; lia|].
    split; [apply clipped_range_length; lia|].
    split; intros q Hq; apply clipped_range_bounds in Hq;
      destruct Hq as (i & Hi & Hb & Hr); exists i;
      (split; [exact Hi|]); (split; [exact Hb | lia]).
  - apply Z.ltb_ge in E. exists Automatic. split; [reflexivity | lia].
Qed.

(** X19: when [on_lims_change] sets the ticks per base, the indices ticked
    on an axis are the integers from the lower limit, or from 0 if the limit
    is negative, up to the upper limit, or to the last index of the sequence
    if the limit is beyond it, in increasing order and without a gap. *)
Theorem on_lims_change_ticks (x_a x_b y_a y_b : Z) (read reference : string)
  (t : ticks) :
  on_lims_change x_a x_b y_a y_b read reference = Ok (PerBase t) ->
  xticks t
  = map (fun i => inject_Z i + (1 # 2))%Q
      (py_range (Z.max x_a 0)
         (Z.min (x_b + 1) (Z.of_nat (String.length read))))
  /\ yticks t
     = map (fun i => inject_Z i + (1 # 2))%Q
         (py_range (Z.max y_a 0)
            (Z.min (y_b + 1) (Z.of_nat (String.length reference)))).
Proof.
  unfold on_lims_change.
  destruct (Z.max (x_b - x_a) (y_b - y_a) <? 100); [|discriminate].
  destruct (mapM _ _) as [xl|e]; [|discriminate]. cbn [bind].
  destruct (mapM _ _) as [yl|e]; [|discriminate]. cbn [bind].
  intros H. injection H as <-. cbn [xticks yticks].
  rewrite !py_range_clip. split; reflexivity.
Qed.

Lemma on_lims_change_ticks_witness :
  on_lims_change (-3) 5 2 9 "ACGTACGT" "ACGTA"
  = Ok (PerBase
          (mkTicks
             [(1 # 2); (3 # 2); (5 # 2); (7 # 2); (9 # 2); (11 # 2)]%Q
             [String "0" (String (ascii_of_nat 10) "A"); "C"; "G"; "T"; "A";
              "C"]
             [(5 # 2); (7 # 2); (9 # 2)]%Q
             ["G"; "T"; "A"]))
  /\ [(1 # 2); (3 # 2); (5 # 2); (7 # 2); (9 # 2); (11 # 2)]%Q
     = map (fun i => inject_Z i + (1 # 2))%Q
         (py_range (Z.max (-3) 0)
            (Z.min (5 + 1) (Z.of_nat (String.length "ACGTACGT"))))
  /\ [(5 # 2); (7 # 2); (9 # 2)]%Q
     = map (fun i => inject_Z i + (1 # 2))%Q
         (py_range (Z.max 2 0)
            (Z.min (9 + 1) (Z.of_nat (String.length "ACGTA")))).
Proof.
  split; [reflexivity|].
  apply (on_lims_change_ticks (-3) 5 2 9 "ACGTACGT" "ACGTA"
           (mkTicks
              [(1 # 2); (3 # 2); (5 # 2); (7 # 2); (9 # 2); (11 # 2)]%Q
              [String "0" (String (ascii_of_nat 10) "A"); "C"; "G"; "T"; "A";
               "C"]
              [(5 # 2); (7 # 2); (9 # 2)]%Q
              ["G"; "T"; "A"])).
  reflexivity.
Defined.

(** * Round trip of the scan *)

(** X20: the scan reads back what is written: on the texts of well-formed
    runs put one after the other it finds these runs, each with its digits
    as written, leading zeros included, and nothing else. *)
Theorem scan_reads_back_runs (rs : list run) :
  forallb well_formed_run rs = true ->
  finditer (cigar_text rs) = rs
  /\ cigar_text (finditer (cigar_text rs)) = cigar_text rs.
Proof.
  intros H. rewrite (finditer_cigar_text rs H). split; reflexivity.
Qed.

Lemma scan_reads_back_runs_witness :
  forallb well_formed_run [mkRun "007" "="; mkRun "12" "D"] = true
  /\ finditer (cigar_text [mkRun "007" "="; mkRun "12" "D"])
     = [mkRun "007" "="; mkRun "12" "D"]
  /\ cigar_text (finditer (cigar_text [mkRun "007" "="; mkRun "12" "D"]))
     = cigar_text [mkRun "007" "="; mkRun "12" "D"].
Proof.
  split; [reflexivity|].
  apply (scan_reads_back_runs [mkRun "007" "="; mkRun "12" "D"]).
  reflexivity.
Defined.

(** * The bound on the digits *)

(** X21: both decoders return exactly when no run found by the scan has
    more than 4300 digits, leading zeros counted; otherwise both raise the
    [ValueError] of [int] on the first run with more digits, and return
    nothing of what the runs before it gave. *)
Theorem decoders_stop_on_long_count (cigar : string) :
  match first_unfit (finditer cigar) with
  | None =>
      forallb count_fits (finditer cigar) = true
      /\ (exists path, cigar_to_coords cigar = Ok path)
      /\ (exists segs, cigar_to_match_coords cigar = Ok segs)
  | Some r =>
      In r (finditer cigar)
      /\ 4300 < Z.of_nat (String.length (group1 r))
      /\ cigar_to_coords cigar = Raise (count_error r)
      /\ cigar_to_match_coords cigar = Raise (count_error r)
  end.
Proof.
  rewrite cigar_to_coords_spec, cigar_to_match_coords_spec.
  destruct (first_unfit (finditer cigar)) as [r|] eqn:E.
  - apply first_unfit_some in E. destruct E as [Hin Hfit].
    split; [exact Hin|]. split; [|split; reflexivity].
    unfold count_fits, int_max_str_digits in Hfit.
    apply Z.leb_gt in Hfit. exact Hfit.
  - split; [apply first_unfit_none, E|]. split; eexists; reflexivity.
Qed.
